(** * fasm: a shallow embedding of the Xonotic StackVM assembler (fasm.py)

    The script is a parsy grammar followed by two passes over the parsed
    nodes (label table, code generation) and the emission of one
    [alias __svm.<i> "<instruction>"] line per instruction.

    Source text is a [string] whose characters are read as code points
    below 256 (Latin-1); Python's [re] character classes are written out
    for that range. A parsy parser is a function from the remaining input
    to [option (value * remaining input)]; a failure carries no position
    here (the position only feeds parsy's error message). *)

From Stdlib Require Import ZArith Ascii String List Bool Lia.
From Stdlib Require Import Numbers.DecimalString.
From stdpp Require Import base gmap strings.

Import ListNotations.
Open Scope string_scope.
Open Scope Z_scope.

(* ------------------------------------------------------------------ *)
(** ** Character classes of Python's [re] module *)

Definition code (c : ascii) : Z := Z.of_nat (nat_of_ascii c).

(** [\s] on a str pattern: [str.isspace()]. *)
Definition is_space (c : ascii) : bool :=
  let n := code c in
  ((9 <=? n) && (n <=? 13)) || ((28 <=? n) && (n <=? 32))
  || (n =? 133) || (n =? 160).

Definition is_ascii_digit (c : ascii) : bool :=
  let n := code c in (48 <=? n) && (n <=? 57).

Definition is_ascii_letter (c : ascii) : bool :=
  let n := code c in ((65 <=? n) && (n <=? 90)) || ((97 <=? n) && (n <=? 122)).

Definition is_underscore (c : ascii) : bool := code c =? 95.

(** [\w] on a str pattern: [str.isalnum()] or ['_']; above 127 these are
    the Latin-1 letters and digits (ª ² ³ µ ¹ º ¼ ½ ¾ À-Ö Ø-ö ø-ÿ). *)
Definition is_word (c : ascii) : bool :=
  let n := code c in
  is_ascii_letter c || is_ascii_digit c || is_underscore c
  || (n =? 170) || (n =? 178) || (n =? 179) || (n =? 181) || (n =? 185)
  || (n =? 186) || ((188 <=? n) && (n <=? 190))
  || ((192 <=? n) && (n <=? 214)) || ((216 <=? n) && (n <=? 246))
  || ((248 <=? n) && (n <=? 255)).

(** [[A-Za-z_]] and [[A-Za-z0-9_]] of [IDENTIFIER]. *)
Definition is_ident_start (c : ascii) : bool := is_ascii_letter c || is_underscore c.
Definition is_ident_char (c : ascii) : bool :=
  is_ascii_letter c || is_ascii_digit c || is_underscore c.

(** Greedy [[class]*]: the longest prefix whose characters satisfy [f]. *)
Fixpoint span (f : ascii -> bool) (s : string) : string * string :=
  match s with
  | EmptyString => (EmptyString, EmptyString)
  | String c r =>
      if f c then let (t, r') := span f r in (String c t, r')
      else (EmptyString, s)
  end.

Fixpoint strip_prefix (w s : string) : option string :=
  match w, s with
  | EmptyString, _ => Some s
  | String a w', String b s' => if Ascii.eqb a b then strip_prefix w' s' else None
  | String _ _, EmptyString => None
  end.

Fixpoint last_char (w : string) : option ascii :=
  match w with
  | EmptyString => None
  | String c EmptyString => Some c
  | String _ r => last_char r
  end.

Definition first_char (s : string) : option ascii :=
  match s with EmptyString => None | String c _ => Some c end.

Definition word_at (c : option ascii) : bool :=
  match c with Some c => is_word c | None => false end.

(** [\b] between the character before and the character after a position. *)
Definition word_boundary (before after : option ascii) : bool :=
  xorb (word_at before) (word_at after).

(* ------------------------------------------------------------------ *)
(** ** Python values rendered by the script *)

(** A Python float from a literal without sign or exponent: zero,
    infinity, or [m * 2^e] in canonical binary64 form
    ([2^52 <= m < 2^53], or [m < 2^52] and [e = -1074]). *)
Inductive pyfloat :=
| PFZero
| PFInf
| PFFin (m e : Z).

Definition pow2 (k : Z) : Z := Z.shiftl 1 k.

(** Round-half-even of [num / den], [den > 0]. *)
Definition round_half_even (num den : Z) : Z :=
  let q := num / den in
  let r := num mod den in
  if (den <? 2 * r) || ((2 * r =? den) && Z.odd q) then q + 1 else q.

(** [floor (log2 (p / q))] for [p, q > 0]. *)
Definition floor_log2_ratio (p q : Z) : Z :=
  let k := Z.log2 p - Z.log2 q in
  let below := if 0 <=? k then p <? q * pow2 k else p * pow2 (- k) <? q in
  if below then k - 1 else k.

(** Correctly rounded binary64 value of [p / q] ([p >= 0], [q > 0]),
    ties to even, overflow to infinity: what [float()] computes. *)
Definition round_binary64 (p q : Z) : pyfloat :=
  if p =? 0 then PFZero else
  let ex := Z.max (floor_log2_ratio p q - 52) (-1074) in
  let m := if 0 <=? ex then round_half_even p (q * pow2 ex)
           else round_half_even (p * pow2 (- ex)) q in
  let '(m, ex) := if m =? pow2 53 then (pow2 52, ex + 1) else (m, ex) in
  if m =? 0 then PFZero
  else if 971 <? ex then PFInf
  else PFFin m ex.

(** [int()] of a string of ASCII digits. *)
Fixpoint digits_value_acc (acc : Z) (s : string) : Z :=
  match s with
  | EmptyString => acc
  | String c r => digits_value_acc (10 * acc + (code c - 48)) r
  end.

Definition py_int (s : string) : Z := digits_value_acc 0 s.

(** [float()] of a text matching [[0-9]*[.][0-9]+]. *)
Definition py_float (s : string) : pyfloat :=
  let (int_part, r) := span is_ascii_digit s in
  let frac := match r with String _ f => f | EmptyString => EmptyString end in
  round_binary64 (py_int (int_part ++ frac))
                 (10 ^ Z.of_nat (String.length frac)).

(** [str()] of a Python int. *)
Definition py_str_int (z : Z) : string := NilEmpty.string_of_int (Z.to_int z).

(** [repr()] of a Python float (CPython's [float_repr]): the shortest
    decimal digit string that reads back to the same float, the nearest
    one when two such strings have that length, formatted by
    [format_float_short] with the ['r'] code and [Py_DTSF_ADD_DOT_0]. *)

Definition pyfloat_eqb (f g : pyfloat) : bool :=
  match f, g with
  | PFZero, PFZero | PFInf, PFInf => true
  | PFFin m e, PFFin m' e' => (m =? m') && (e =? e')
  | _, _ => false
  end.

(** The float read back from the decimal [n * 10^k]. *)
Definition decimal_to_float (n k : Z) : pyfloat :=
  round_binary64 (n * 10 ^ Z.max k 0) (10 ^ Z.max (- k) 0).

(** Number of decimal digits of [n > 0]. *)
Definition dec_len (n : Z) : Z := Z.of_nat (String.length (py_str_int n)).

(** The [E] with [10^(E-1) <= num/den < 10^E]; binary64 values are above
    [10^-340]. *)
Definition dec_exponent (num den : Z) : Z := dec_len (num * 10 ^ 340 / den) - 340.

(** Search of the shortest round-tripping digit string, from [d] digits
    up; the result [(n, d)] stands for [n * 10^(E-d)]. *)
Fixpoint shortest_digits (fuel : nat) (d : Z) (f : pyfloat) (num den E : Z)
  : Z * Z :=
  let a := num * 10 ^ Z.max (d - E) 0 in
  let b := den * 10 ^ Z.max (E - d) 0 in
  let lo := a / b in
  let r := a mod b in
  if r =? 0 then (lo, d) else
  let ok_lo := pyfloat_eqb (decimal_to_float lo (E - d)) f in
  let ok_hi := pyfloat_eqb (decimal_to_float (lo + 1) (E - d)) f in
  match ok_lo, ok_hi with
  | true, true =>
      (if (2 * r <? b) || ((2 * r =? b) && Z.even lo) then lo else lo + 1, d)
  | true, false => (lo, d)
  | false, true => (lo + 1, d)
  | false, false =>
      match fuel with
      | O => (round_half_even a b, d)
      | S fuel' => shortest_digits fuel' (d + 1) f num den E
      end
  end.

Fixpoint strip_trailing_zeros (fuel : nat) (n : Z) : Z :=
  match fuel with
  | O => n
  | S fuel' => if (0 <? n) && (n mod 10 =? 0)
               then strip_trailing_zeros fuel' (n / 10) else n
  end.

Fixpoint zeros (k : nat) : string :=
  match k with O => EmptyString | S k' => String "0" (zeros k') end.

(** [format_float_short] for the digits [0.DIGITS * 10^decpt]. *)
Definition format_repr (digits : string) (decpt : Z) : string :=
  let len := Z.of_nat (String.length digits) in
  if (decpt <=? -4) || (16 <? decpt) then
    let exp := decpt - 1 in
    let e := py_str_int (Z.abs exp) in
    substring 0 1 digits
    ++ (if 1 <? len then "." ++ substring 1 (Z.to_nat (len - 1)) digits else "")
    ++ "e" ++ (if exp <? 0 then "-" else "+")
    ++ (if (Z.of_nat (String.length e) <? 2) then "0" ++ e else e)
  else if decpt <=? 0 then "0." ++ zeros (Z.to_nat (- decpt)) ++ digits
  else if len <=? decpt then digits ++ zeros (Z.to_nat (decpt - len)) ++ ".0"
  else substring 0 (Z.to_nat decpt) digits ++ "."
       ++ substring (Z.to_nat decpt) (Z.to_nat (len - decpt)) digits.

Definition py_repr_float (f : pyfloat) : string :=
  match f with
  | PFZero => "0.0"
  | PFInf => "inf"
  | PFFin m e =>
      let num := if 0 <=? e then m * pow2 e else m in
      let den := if 0 <=? e then 1 else pow2 (- e) in
      let E := dec_exponent num den in
      let '(n, d) := shortest_digits 16 1 f num den E in
      let decpt := E + (dec_len n - d) in
      format_repr (py_str_int (strip_trailing_zeros 20 n)) decpt
  end.

(** Python values carried by the parsed nodes. *)
Inductive pyval :=
| VInt (z : Z)
| VFloat (f : pyfloat)
| VStr (s : string).

(** [str()] of a value, as the f-strings of the code generator use it. *)
Definition py_str (v : pyval) : string :=
  match v with
  | VInt z => py_str_int z
  | VFloat f => py_repr_float f
  | VStr s => s
  end.

(* ------------------------------------------------------------------ *)
(** ** parsy combinators *)

Definition parser (A : Type) : Type := string -> option (A * string).

(** [p.map(f)] *)
Definition pmap {A B} (f : A -> B) (p : parser A) : parser B :=
  fun s => match p s with Some (x, r) => Some (f x, r) | None => None end.

(** [p.result(b)] *)
Definition presult {A B} (b : B) (p : parser A) : parser B := pmap (fun _ => b) p.

(** [p | q]: ordered choice, [q] retried from the same position. *)
Definition palt {A} (p q : parser A) : parser A :=
  fun s => match p s with Some res => Some res | None => q s end.

(** [seq(p, q)] *)
Definition pseq {A B} (p : parser A) (q : parser B) : parser (A * B) :=
  fun s => match p s with
           | Some (x, r) => match q r with Some (y, r') => Some ((x, y), r') | None => None end
           | None => None
           end.

(** [p << q] keeps the value of [p], [p >> q] the value of [q]. *)
Definition pskip_r {A B} (p : parser A) (q : parser B) : parser A :=
  pmap fst (pseq p q).
Definition pskip_l {A B} (p : parser A) (q : parser B) : parser B :=
  pmap snd (pseq p q).

(** [p + q] on string results: [seq(p, q).combine(operator.add)]. *)
Definition pcat (p q : parser string) : parser string :=
  pmap (fun '(x, y) => x ++ y) (pseq p q).

(** [string(w)] *)
Definition pstring (w : string) : parser string :=
  fun s => match strip_prefix w s with Some r => Some (w, r) | None => None end.

(** [p.many()]: repeats [p] until it fails; never fails itself. Every
    parser it is used with consumes input, so [length s + 1] rounds are
    enough (see [many_fuel_enough]). *)
Fixpoint many_fuel {A} (fuel : nat) (p : parser A) (s : string) : list A * string :=
  match fuel with
  | O => ([], s)
  | S fuel' =>
      match p s with
      | Some (x, r) => let '(xs, r') := many_fuel fuel' p r in (x :: xs, r')
      | None => ([], s)
      end
  end.

Definition pmany {A} (p : parser A) : parser (list A) :=
  fun s => Some (many_fuel (S (String.length s)) p s).

(** Errors that end a run of the script. *)
Inductive error :=
| SyntaxError                  (* parsy.ParseError *)
| ValueError                   (* int() of a decimal string over 4300 digits *)
| UndefinedLabel (name : string). (* Exception(f"Undefined label: '{label_name}'") *)

Inductive result (A : Type) :=
| Ok (x : A)
| Err (e : error).
Arguments Ok {A} x.
Arguments Err {A} e.

(** [p.parse(text)] is [(p << eof).parse_partial(text)]: the whole text
    must be consumed. *)
Definition parse {A} (p : parser A) (text : string) : result A :=
  match p text with
  | Some (x, EmptyString) => Ok x
  | _ => Err SyntaxError
  end.

(* ------------------------------------------------------------------ *)
(** ** The grammar (fasm.py, lines 22-142) *)

(** [regex(r"\s*")] *)
Definition WHITESPACE : parser string := fun s => Some (span is_space s).

Definition token {A} (p : parser A) : parser A := pskip_r p WHITESPACE.

(** [regex(word + r"\b")]: the word, then a word boundary. *)
Definition word_b (word : string) : parser string :=
  fun s => match strip_prefix word s with
           | Some r => if word_boundary (last_char word) (first_char r)
                       then Some (word, r) else None
           | None => None
           end.

Definition literal (word : string) : parser string := token (word_b word).

(** [regex("[A-Za-z_]+[A-Za-z0-9_]*")] *)
Definition IDENTIFIER : parser string :=
  fun s => match s with
           | String c r =>
               if is_ident_start c then let (t, r') := span is_ident_char r in
                                        Some (String c t, r')
               else None
           | EmptyString => None
           end.

Definition COLON : parser string := pstring ":".
Definition FORWARD_SLASH : parser string := pstring "/".

(** [regex("[0-9]+")] and [regex("[0-9]*[.][0-9]+")] *)
Definition INTEGER_RE : parser string :=
  fun s => match span is_ascii_digit s with
           | (EmptyString, _) => None
           | (d, r) => Some (d, r)
           end.

Definition FLOAT_RE : parser string :=
  fun s => let (d1, r1) := span is_ascii_digit s in
           match r1 with
           | String "." r2 =>
               match span is_ascii_digit r2 with
               | (EmptyString, _) => None
               | (d2, r3) => Some (d1 ++ "." ++ d2, r3)
               end
           | _ => None
           end.

(** [INTEGER_RE.map(int)]. Here [int()] is taken without its limit of
    4300 digits; [Py.INTEGER] below raises [ValueError] beyond it, and
    [digit_limit_only_difference] shows the two agree on every source
    without such a run of digits. *)
Definition INTEGER : parser pyval := pmap (fun t => VInt (py_int t)) INTEGER_RE.
Definition FLOAT : parser pyval := pmap (fun t => VFloat (py_float t)) FLOAT_RE.
Definition NUMBER : parser pyval := palt FLOAT INTEGER.

Definition TRUE : parser pyval := presult (VInt 1) (literal "true").
Definition FALSE : parser pyval := presult (VInt 0) (literal "false").
Definition BOOLEAN : parser pyval := palt TRUE FALSE.

(** The AST nodes: [{"type": "label", "value": name}] and
    [{"type": "opcode", "value": {"opcode": op, "arg": arg}}]. *)
Inductive node :=
| NLabel (name : string)
| NOpcode (op : string) (arg : option pyval).

(** [LABEL = token(IDENTIFIER << COLON).map(label)] *)
Definition LABEL : parser node := pmap NLabel (token (pskip_r IDENTIFIER COLON)).

(** An opcode parser yields either a string (the opcode alone) or the
    list [[opcode, arg]] built by [seq]. *)
Inductive raw :=
| RWord (op : string)
| RList (op : string) (arg : pyval).

Definition rword (p : parser string) : parser raw := pmap RWord p.
Definition rlist (p : parser (string * pyval)) : parser raw :=
  pmap (fun '(o, a) => RList o a) p.

Definition PUSH : parser raw :=
  rlist (pseq (literal "push")
              (palt NUMBER (palt BOOLEAN (pmap VStr (pcat FORWARD_SLASH IDENTIFIER))))).
Definition POP := literal "pop".
Definition DUP := literal "dup".
Definition DOT := literal "dot".

Definition STACK_OP : parser raw :=
  palt PUSH (palt (rword POP) (palt (rword DUP) (rword DOT))).

Definition ADD := literal "add".
Definition SUB := literal "sub".
Definition MUL := literal "mul".
Definition DIV := literal "div".
Definition POW := literal "pow".
Definition MIN := literal "min".
Definition MAX := literal "max".

Definition ARITHMETIC_OP : parser raw :=
  rword (palt ADD (palt SUB (palt MUL (palt DIV (palt POW (palt MIN MAX)))))).

Definition JMP := literal "jmp".
Definition JIF := literal "jif".
Definition CALL := literal "call".
Definition RET := literal "ret".

Definition BRANCH_OP : parser raw :=
  palt (rlist (pseq (palt JMP (palt JIF CALL)) (pmap VStr IDENTIFIER))) (rword RET).

Definition EQ := presult "iseq" (literal "eq").
Definition NE := presult "isneq" (literal "ne").
Definition LT := presult "islt" (literal "lt").
Definition LE := presult "isle" (literal "le").
Definition GT := presult "isgt" (literal "gt").
Definition GE := presult "isge" (literal "ge").

Definition LOGICAL_OP : parser raw :=
  rword (palt EQ (palt NE (palt LT (palt LE (palt GT GE))))).

Definition STORE := presult "store_l" (literal "store").
Definition LOAD := presult "load_l" (literal "load").
Definition GSTORE := presult "store_g" (literal "gstore").
Definition GLOAD := presult "load_g" (literal "gload").

Definition IO_OP : parser raw :=
  rlist (pseq (palt STORE (palt LOAD (palt GSTORE GLOAD))) (pmap VStr IDENTIFIER)).

Definition HLT := literal "hlt".

(** [opcode(result)]: [isinstance(result, list)] tells the two shapes apart. *)
Definition opcode (r : raw) : node :=
  match r with
  | RList o a => NOpcode o (Some a)
  | RWord o => NOpcode o None
  end.

Definition OPCODE : parser node :=
  pmap opcode (token (palt STACK_OP (palt ARITHMETIC_OP (palt BRANCH_OP
                        (palt LOGICAL_OP (palt IO_OP (rword HLT))))))).

Definition statement : parser node := palt LABEL OPCODE.

(** [program = WHITESPACE >> statement.many()] *)
Definition program : parser (list node) := pskip_l WHITESPACE (pmany statement).

(* ------------------------------------------------------------------ *)
(** ** Pass 1: the label table (fasm.py, lines 158-173) *)

(** The loop state: [address_counter] and [labels]. *)
Definition resolve_step (st : Z * gmap string Z) (n : node) : Z * gmap string Z :=
  let '(address_counter, labels) := st in
  match n with
  | NLabel label => (address_counter, <[label := address_counter]> labels)
  | NOpcode _ _ => (address_counter + 1, labels)
  end.

Definition resolve_state (ast : list node) : Z * gmap string Z :=
  fold_left resolve_step ast (0, ∅).

Definition resolve (ast : list node) : gmap string Z := snd (resolve_state ast).

(* ------------------------------------------------------------------ *)
(** ** Pass 2: code generation (fasm.py, lines 176-209) *)

Definition is_branch (op : string) : bool :=
  String.eqb op "call" || String.eqb op "jmp" || String.eqb op "jif".

(** The dictionary lookup [labels[label_name]]; the keys are strings. *)
Definition lookup_label (labels : gmap string Z) (v : pyval) : option Z :=
  match v with VStr s => labels !! s | _ => None end.

(** One opcode node rendered. *)
Definition render (labels : gmap string Z) (op : string) (arg : option pyval)
  : result string :=
  match arg with
  | Some a =>
      if is_branch op then
        match lookup_label labels a with
        | Some label_address => Ok (op ++ " " ++ py_str_int label_address)
        | None => Err (UndefinedLabel (py_str a))
        end
      else Ok (op ++ " " ++ py_str a)
  | None => Ok op
  end.

Fixpoint generate (labels : gmap string Z) (address_counter : Z) (ast : list node)
  : result (list string) :=
  match ast with
  | [] => Ok []
  | NLabel _ :: rest => generate labels address_counter rest
  | NOpcode op arg :: rest =>
      match render labels op arg with
      | Err e => Err e
      | Ok ins =>
          match generate labels (address_counter + 1) rest with
          | Ok instructions => Ok (ins :: instructions)
          | Err e => Err e
          end
      end
  end.

(* ------------------------------------------------------------------ *)
(** ** Emission (fasm.py, lines 212-218) *)

Definition dquote : string := String (ascii_of_nat 34) EmptyString.
Definition newline : string := String (ascii_of_nat 10) EmptyString.

Definition directive (index : nat) (instruction : string) : string :=
  "alias __svm." ++ py_str_int (Z.of_nat index) ++ " " ++ dquote ++ instruction
  ++ dquote ++ newline.

Fixpoint emit_from (index : nat) (instructions : list string) : string :=
  match instructions with
  | [] => EmptyString
  | ins :: rest => directive index ins ++ emit_from (S index) rest
  end.

Definition emit (instructions : list string) : string := emit_from 0 instructions.

(* ------------------------------------------------------------------ *)
(** ** The whole script, from [source_code] on (fasm.py, lines 155-218) *)

Definition translate (source_code : string) : result (list string) :=
  match parse program source_code with
  | Err e => Err e
  | Ok ast => generate (resolve ast) 0 ast
  end.

(** The run also returns the content of the output file: untouched
    unless the file is opened for writing after code generation. *)
Definition main (source_code : string) (output_file : option string)
  : result unit * option string :=
  match translate source_code with
  | Err e => (Err e, output_file)
  | Ok instructions => (Ok tt, Some (emit instructions))
  end.

(* ------------------------------------------------------------------ *)
(** ** The grammar as parsy runs it, with Python's exceptions

    The parsers above never raise. In the script, [INTEGER] maps the
    matched digits with [int], which raises [ValueError] on a decimal
    string of more than 4300 digits (CPython's default
    [sys.int_info.default_max_str_digits], since 3.11); parsy does not
    catch the exception, so it ends the whole parse. The module below
    is the grammar of lines 22-142 again with that exception, and the
    script of lines 155-218 on top of it. The regular expressions and
    [string(...)] never raise and are taken from above. *)
Module Py.

(** A parsy parser fails (the next alternative is tried), succeeds with
    the rest of the text, or raises. *)
Inductive reply (A : Type) :=
| Fails
| Succeeds (x : A) (r : string)
| Raises (e : error).
Arguments Fails {A}.
Arguments Succeeds {A} x r.
Arguments Raises {A} e.

Definition of_option {A} (o : option (A * string)) : reply A :=
  match o with Some (x, r) => Succeeds x r | None => Fails end.

(** A parser that cannot raise ([regex], [string]). *)
Definition lift {A} (p : string -> option (A * string)) : string -> reply A :=
  fun s => of_option (p s).

Definition parser (A : Type) : Type := string -> reply A.

(** [p.map(f)], [f] a Python function that returns or raises. *)
Definition pmap_py {A B} (f : A -> result B) (p : parser A) : parser B :=
  fun s => match p s with
           | Succeeds x r => match f x with Ok y => Succeeds y r | Err e => Raises e end
           | Fails => Fails
           | Raises e => Raises e
           end.

Definition pmap {A B} (f : A -> B) (p : parser A) : parser B := pmap_py (fun x => Ok (f x)) p.
Definition presult {A B} (b : B) (p : parser A) : parser B := pmap (fun _ => b) p.

Definition palt {A} (p q : parser A) : parser A :=
  fun s => match p s with Fails => q s | res => res end.

Definition pseq {A B} (p : parser A) (q : parser B) : parser (A * B) :=
  fun s => match p s with
           | Succeeds x r =>
               match q r with
               | Succeeds y r' => Succeeds (x, y) r'
               | Fails => Fails
               | Raises e => Raises e
               end
           | Fails => Fails
           | Raises e => Raises e
           end.

Definition pskip_r {A B} (p : parser A) (q : parser B) : parser A := pmap fst (pseq p q).
Definition pskip_l {A B} (p : parser A) (q : parser B) : parser B := pmap snd (pseq p q).
Definition pcat (p q : parser string) : parser string :=
  pmap (fun '(x, y) => x ++ y) (pseq p q).

(** [p.many()]: stops where [p] fails, passes an exception on. *)
Fixpoint many_fuel {A} (fuel : nat) (p : parser A) (s : string) : reply (list A) :=
  match fuel with
  | O => Succeeds [] s
  | S fuel' =>
      match p s with
      | Succeeds x r =>
          match many_fuel fuel' p r with
          | Succeeds xs r' => Succeeds (x :: xs) r'
          | Fails => Fails
          | Raises e => Raises e
          end
      | Fails => Succeeds [] s
      | Raises e => Raises e
      end
  end.

Definition pmany {A} (p : parser A) : parser (list A) :=
  fun s => many_fuel (S (String.length s)) p s.

(** [p.parse(text)]: an exception of [p] goes through. *)
Definition parse {A} (p : parser A) (text : string) : result A :=
  match p text with
  | Succeeds x EmptyString => Ok x
  | Raises e => Err e
  | _ => Err SyntaxError
  end.

Definition WHITESPACE : parser string := lift WHITESPACE.
Definition token {A} (p : parser A) : parser A := pskip_r p WHITESPACE.
Definition literal (word : string) : parser string := token (lift (word_b word)).

Definition IDENTIFIER : parser string := lift IDENTIFIER.
Definition COLON : parser string := lift (pstring ":").
Definition FORWARD_SLASH : parser string := lift (pstring "/").

(** [int(t)] of a string of ASCII digits. *)
Definition int (t : string) : result Z :=
  if (4300 <? String.length t)%nat then Err ValueError else Ok (py_int t).

Definition INTEGER : parser pyval :=
  pmap_py (fun t => match int t with Ok z => Ok (VInt z) | Err e => Err e end)
          (lift INTEGER_RE).
Definition FLOAT : parser pyval := pmap (fun t => VFloat (py_float t)) (lift FLOAT_RE).
Definition NUMBER : parser pyval := palt FLOAT INTEGER.

Definition TRUE : parser pyval := presult (VInt 1) (literal "true").
Definition FALSE : parser pyval := presult (VInt 0) (literal "false").
Definition BOOLEAN : parser pyval := palt TRUE FALSE.

Definition LABEL : parser node := pmap NLabel (token (pskip_r IDENTIFIER COLON)).

Definition rword (p : parser string) : parser raw := pmap RWord p.
Definition rlist (p : parser (string * pyval)) : parser raw :=
  pmap (fun '(o, a) => RList o a) p.

Definition PUSH : parser raw :=
  rlist (pseq (literal "push")
              (palt NUMBER (palt BOOLEAN (pmap VStr (pcat FORWARD_SLASH IDENTIFIER))))).
Definition POP := literal "pop".
Definition DUP := literal "dup".
Definition DOT := literal "dot".

Definition STACK_OP : parser raw :=
  palt PUSH (palt (rword POP) (palt (rword DUP) (rword DOT))).

Definition ADD := literal "add".
Definition SUB := literal "sub".
Definition MUL := literal "mul".
Definition DIV := literal "div".
Definition POW := literal "pow".
Definition MIN := literal "min".
Definition MAX := literal "max".

Definition ARITHMETIC_OP : parser raw :=
  rword (palt ADD (palt SUB (palt MUL (palt DIV (palt POW (palt MIN MAX)))))).

Definition JMP := literal "jmp".
Definition JIF := literal "jif".
Definition CALL := literal "call".
Definition RET := literal "ret".

Definition BRANCH_OP : parser raw :=
  palt (rlist (pseq (palt JMP (palt JIF CALL)) (pmap VStr IDENTIFIER))) (rword RET).

Definition EQ := presult "iseq" (literal "eq").
Definition NE := presult "isneq" (literal "ne").
Definition LT := presult "islt" (literal "lt").
Definition LE := presult "isle" (literal "le").
Definition GT := presult "isgt" (literal "gt").
Definition GE := presult "isge" (literal "ge").

Definition LOGICAL_OP : parser raw :=
  rword (palt EQ (palt NE (palt LT (palt LE (palt GT GE))))).

Definition STORE := presult "store_l" (literal "store").
Definition LOAD := presult "load_l" (literal "load").
Definition GSTORE := presult "store_g" (literal "gstore").
Definition GLOAD := presult "load_g" (literal "gload").

Definition IO_OP : parser raw :=
  rlist (pseq (palt STORE (palt LOAD (palt GSTORE GLOAD))) (pmap VStr IDENTIFIER)).

Definition HLT := literal "hlt".

Definition OPCODE : parser node :=
  pmap opcode (token (palt STACK_OP (palt ARITHMETIC_OP (palt BRANCH_OP
                        (palt LOGICAL_OP (palt IO_OP (rword HLT))))))).

Definition statement : parser node := palt LABEL OPCODE.

Definition program : parser (list node) := pskip_l WHITESPACE (pmany statement).

Definition translate (source_code : string) : result (list string) :=
  match parse program source_code with
  | Err e => Err e
  | Ok ast => generate (resolve ast) 0 ast
  end.

Definition main (source_code : string) (output_file : option string)
  : result unit * option string :=
  match translate source_code with
  | Err e => (Err e, output_file)
  | Ok instructions => (Ok tt, Some (emit instructions))
  end.

End Py.

(* ------------------------------------------------------------------ *)
(** ** The command line and the files (fasm.py, lines 9-17, 145-155, 212-218) *)

(** The namespace [cli_arguments] returned by [parse_args()]. *)
Record cli_arguments := { file : string; output : string }.

(** [add_argument("-o", "--output", default="a.cfg")]: the output path
    when the option is given, ["a.cfg"] otherwise. *)
Definition cli_namespace (file : string) (output : option string) : cli_arguments :=
  {| file := file; output := match output with Some o => o | None => "a.cfg" end |}.

(** The files, by path (paths are taken as already resolved): a regular
    file with its text, or a directory. *)
Inductive fs_entry :=
| File (contents : string)
| Directory.

Abbreviation filesystem := (gmap string fs_entry).

(** [source_file.read()] in text mode: universal newlines turn ["\r\n"]
    and a lone ["\r"] into ["\n"]. *)
Fixpoint universal_newlines (s : string) : string :=
  match s with
  | EmptyString => EmptyString
  | String c r =>
      if Ascii.eqb c (ascii_of_nat 13) then
        match r with
        | String d r' =>
            if Ascii.eqb d (ascii_of_nat 10) then String (ascii_of_nat 10) (universal_newlines r')
            else String (ascii_of_nat 10) (universal_newlines r)
        | EmptyString => String (ascii_of_nat 10) EmptyString
        end
      else String c (universal_newlines r)
  end.

(** The exceptions that end a run. *)
Inductive run_error :=
| SourceMissing                 (* FileNotFoundError raised at line 148 *)
| IsADirectoryError (path : string)
| OSError (path : string)       (* open(), write or close refused by the system *)
| TranslationError (e : error). (* ParseError, ValueError or the undefined label *)

Inductive outcome :=
| Done
| Raised (e : run_error).

Section Script.
(** What the system allows beyond the file table: reading an existing
    file, and opening a path for writing (an existing file, or a new one
    in an existing directory). *)
Variable readable writable : string -> bool.

(** Once [open(output, "w")] has created or truncated the file, writing
    [vm_program] and closing the file succeed ([None]) or raise an
    [OSError] after the first [n] characters have reached the file
    ([Some n]; a full disk, say). *)
Variable write_fault : string -> option nat.

(** The script from [source_path = Path(cli_arguments.file)] on. *)
Definition run (fs : filesystem) (args : cli_arguments) : outcome * filesystem :=
  match fs !! file args with
  | None => (Raised SourceMissing, fs)
  | Some Directory => (Raised (IsADirectoryError (file args)), fs)
  | Some (File contents) =>
      if negb (readable (file args)) then (Raised (OSError (file args)), fs) else
      match Py.translate (universal_newlines contents) with
      | Err e => (Raised (TranslationError e), fs)
      | Ok instructions =>
          match fs !! output args with
          | Some Directory => (Raised (IsADirectoryError (output args)), fs)
          | _ =>
              if writable (output args) then
                let vm_program := emit instructions in
                match write_fault (output args) with
                | None => (Done, <[output args := File vm_program]> fs)
                | Some n => (Raised (OSError (output args)),
                             <[output args := File (substring 0 n vm_program)]> fs)
                end
              else (Raised (OSError (output args)), fs)
          end
      end
  end.
End Script.

(* ------------------------------------------------------------------ *)
(** ** Observations on node sequences *)

(** Number of [Instruction] (opcode) nodes. *)
Fixpoint count_opcodes (ast : list node) : nat :=
  match ast with
  | [] => O
  | NLabel _ :: rest => count_opcodes rest
  | NOpcode _ _ :: rest => S (count_opcodes rest)
  end.

(** The opcode nodes, in source order. *)
Fixpoint opcodes_of (ast : list node) : list (string * option pyval) :=
  match ast with
  | [] => []
  | NLabel _ :: rest => opcodes_of rest
  | NOpcode op arg :: rest => (op, arg) :: opcodes_of rest
  end.

(** Where [name] was last declared, as a split of the sequence. *)
Definition last_decl (ast : list node) (name : string) (a : Z) : Prop :=
  exists pre post, ast = (pre ++ NLabel name :: post)%list /\
                   ~ In (NLabel name) post /\ a = Z.of_nat (count_opcodes pre).

Fixpoint all_chars (f : ascii -> bool) (s : string) : bool :=
  match s with
  | EmptyString => true
  | String c r => f c && all_chars f r
  end.

(** [f] does not hold at the first character (if any). *)
Definition stops_at (f : ascii -> bool) (s : string) : bool :=
  match s with EmptyString => true | String c _ => negb (f c) end.

(** An identifier as [IDENTIFIER] matches it. *)
Definition is_identifier (s : string) : bool :=
  match s with
  | EmptyString => false
  | String c r => is_ident_start c && all_chars is_ident_char r
  end.

(** Opcode parser results: a branch opcode comes with an identifier. *)
Definition raw_ok (x : raw) : Prop :=
  match x with
  | RList o a => is_branch o = true -> exists name, a = VStr name
  | RWord _ => True
  end.

Definition node_ok (n : node) : Prop :=
  match n with
  | NOpcode op (Some a) => is_branch op = true -> exists name, a = VStr name
  | _ => True
  end.

(** The words given to [literal] in the grammar. *)
Definition keywords : list string :=
  ["true"; "false"; "push"; "pop"; "dup"; "dot"; "add"; "sub"; "mul"; "div";
   "pow"; "min"; "max"; "jmp"; "jif"; "call"; "ret"; "eq"; "ne"; "lt"; "le";
   "gt"; "ge"; "store"; "load"; "gstore"; "gload"; "hlt"].

(** The renamings done by [.result(...)] in [LOGICAL_OP] and [IO_OP]. *)
Definition logical_mnemonics : list (string * string) :=
  [("eq", "iseq"); ("ne", "isneq"); ("lt", "islt"); ("le", "isle");
   ("gt", "isgt"); ("ge", "isge")].

Definition io_mnemonics : list (string * string) :=
  [("store", "store_l"); ("load", "load_l"); ("gstore", "store_g"); ("gload", "load_g")].

(** Characters that cannot break a directive line: neither the double
    quote that closes it nor a line feed. *)
Definition quote_safe (c : ascii) : bool :=
  negb (Ascii.eqb c (ascii_of_nat 34)) && negb (Ascii.eqb c (ascii_of_nat 10)).

Fixpoint count_char (c : ascii) (s : string) : nat :=
  match s with
  | EmptyString => O
  | String d r => if Ascii.eqb c d then S (count_char c r) else count_char c r
  end.

(** Parsers whose string results, value results ([VStr] text) and opcode
    results hold quote-safe text only. *)
Definition str_safe (p : parser string) : Prop :=
  forall s x r, p s = Some (x, r) -> all_chars quote_safe x = true.

Definition pyval_safe (v : pyval) : bool :=
  match v with VStr x => all_chars quote_safe x | _ => true end.

Definition val_safe (p : parser pyval) : Prop :=
  forall s v r, p s = Some (v, r) -> pyval_safe v = true.

Definition raw_safe (x : raw) : bool :=
  match x with
  | RWord o => all_chars quote_safe o
  | RList o a => all_chars quote_safe o && pyval_safe a
  end.

Definition node_safe (n : node) : bool :=
  match n with
  | NLabel _ => true
  | NOpcode op None => all_chars quote_safe op
  | NOpcode op (Some a) => all_chars quote_safe op && pyval_safe a
  end.

(** A parser that never lengthens the input it leaves, and one that
    always shortens it. *)
Definition keeps_len {A} (p : parser A) : Prop :=
  forall s x r, p s = Some (x, r) -> (String.length r <= String.length s)%nat.

Definition consumes {A} (p : parser A) : Prop :=
  forall s x r, p s = Some (x, r) -> (String.length r < String.length s)%nat.






(** The remainder of a successful parse is a suffix of the text. *)
Definition suffix_of {A} (p : parser A) : Prop :=
  forall s x r, p s = Some (x, r) -> exists pre, s = (pre ++ r)%string.

(** The text has a run of more than 4300 ASCII digits. *)
Definition has_long_run (s : string) : Prop :=
  exists pre d post, s = (pre ++ d ++ post)%string /\
                     all_chars is_ascii_digit d = true /\ (4300 < String.length d)%nat.

(** [n] copies of [c]. *)
Fixpoint repeat_char (n : nat) (c : ascii) : string :=
  match n with O => EmptyString | S n' => String c (repeat_char n' c) end.

(** The parser of the script [xp] behaves as the parser [p] above, except
    that it may raise; it raises only [ValueError], on a text with a run
    of more than 4300 digits. *)
Definition sound {A} (xp : Py.parser A) (p : parser A) : Prop :=
  forall s, xp s = Py.of_option (p s) \/ (xp s = Py.Raises ValueError /\ has_long_run s).

(* ================================================================== *)
(** * Proofs *)

(** ** Pass 1 *)

Section Pass1.
Local Open Scope list_scope.

Lemma count_opcodes_app (p q : list node) :
  count_opcodes (p ++ q) = (count_opcodes p + count_opcodes q)%nat.
Proof. induction p as [|[] p IH]; simpl; auto. Qed.

Lemma opcodes_of_length (ast : list node) : length (opcodes_of ast) = count_opcodes ast.
Proof. induction ast as [|[] ast IH]; simpl; auto. Qed.

Lemma resolve_state_snoc (ast : list node) (x : node) :
  resolve_state (ast ++ [x]) = resolve_step (resolve_state ast) x.
Proof. unfold resolve_state. now rewrite fold_left_app. Qed.

Lemma resolve_counter (ast : list node) :
  fst (resolve_state ast) = Z.of_nat (count_opcodes ast).
Proof.
  induction ast as [|x ast IH] using rev_ind; [reflexivity|].
  rewrite resolve_state_snoc, count_opcodes_app.
  destruct (resolve_state ast) as [c m]; simpl in *.
  destruct x; simpl; lia.
Qed.

(** The last element of a sequence split around [y]. *)
Lemma split_snoc {A} (ast : list A) (x y : A) (pre post : list A) :
  ast ++ [x] = pre ++ y :: post ->
  (post = [] /\ ast = pre /\ x = y) \/
  (exists post', post = post' ++ [x] /\ ast = pre ++ y :: post').
Proof.
  intros H. destruct post as [|z post'] using rev_ind.
  - left. apply app_inj_tail in H. intuition.
  - right. clear IHpost'. rewrite app_comm_cons, app_assoc in H.
    apply app_inj_tail in H as [-> ->]. eauto.
Qed.

Lemma last_decl_snoc_other (ast : list node) (x : node) (name : string) (a : Z) :
  x <> NLabel name -> last_decl (ast ++ [x]) name a <-> last_decl ast name a.
Proof.
  intros Hx. split.
  - intros (pre & post & H & Hin & ->).
    apply split_snoc in H as [(_ & _ & ->)|(post' & -> & ->)]; [congruence|].
    exists pre, post'. split; [done|]. split; [|done].
    intros Hin'. apply Hin, in_or_app. auto.
  - intros (pre & post & -> & Hin & ->). exists pre, (post ++ [x]).
    rewrite <- app_assoc. split; [done|]. split; [|done].
    intros [Hin'|[Hin'|[]]]%in_app_or; auto.
Qed.

Lemma resolve_lookup (ast : list node) (name : string) (a : Z) :
  resolve ast !! name = Some a <-> last_decl ast name a.
Proof.
  revert a. induction ast as [|x ast IH] using rev_ind; intros a.
  - split; [discriminate|]. intros (pre & post & H & _).
    exfalso. now apply (app_cons_not_nil pre post (NLabel name)).
  - unfold resolve in *. rewrite resolve_state_snoc.
    pose proof (resolve_counter ast) as Hc.
    destruct (resolve_state ast) as [c m]; simpl in *.
    destruct x as [n|op arg]; simpl.
    + destruct (decide (n = name)) as [->|Hne].
      * rewrite lookup_insert_eq. split.
        { intros [= <-]. exists ast, []. rewrite Hc. intuition. }
        { intros (pre & post & H & Hin & ->).
          apply split_snoc in H as [(_ & -> & _)|(post' & -> & _)].
          - now rewrite <- Hc.
          - exfalso. apply Hin, in_or_app. simpl. auto. }
      * rewrite lookup_insert_ne by congruence.
        rewrite last_decl_snoc_other by congruence. apply IH.
    + rewrite last_decl_snoc_other by discriminate. apply IH.
Qed.

End Pass1.

(** ** Pass 2 *)

Section Pass2.
Local Open Scope list_scope.

Lemma generate_forall2 (labels : gmap string Z) (c : Z) (ast : list node)
  (out : list string) :
  generate labels c ast = Ok out ->
  Forall2 (fun oa ins => render labels oa.1 oa.2 = Ok ins) (opcodes_of ast) out.
Proof.
  revert c out. induction ast as [|[n|op arg] ast IH]; intros c out H; simpl in *.
  - injection H as <-. constructor.
  - eauto.
  - destruct (render labels op arg) eqn:Hr; [|discriminate].
    destruct (generate labels (c + 1) ast) eqn:Hg; [|discriminate].
    injection H as <-. constructor; eauto.
Qed.

Lemma generate_length (labels : gmap string Z) (c : Z) (ast : list node)
  (out : list string) :
  generate labels c ast = Ok out -> length out = count_opcodes ast.
Proof.
  intros H%generate_forall2. rewrite <- opcodes_of_length.
  symmetry. eapply Forall2_length; eauto.
Qed.

Lemma generate_err (labels : gmap string Z) (c : Z) (ast : list node) (e : error) :
  generate labels c ast = Err e ->
  exists op arg, In (NOpcode op arg) ast /\ render labels op arg = Err e.
Proof.
  revert c. induction ast as [|[n|op arg] ast IH]; intros c H; simpl in *.
  - discriminate.
  - destruct (IH c H) as (op & arg & Hin & Hr). eauto 6.
  - destruct (render labels op arg) eqn:Hr.
    + destruct (generate labels (c + 1) ast) eqn:Hg; [discriminate|].
      injection H as ->. destruct (IH _ Hg) as (op' & arg' & Hin & Hr'). eauto 6.
    + injection H as ->. eauto.
Qed.

Lemma generate_err_of (labels : gmap string Z) (c : Z) (ast : list node)
  (op : string) (arg : option pyval) (e : error) :
  In (NOpcode op arg) ast -> render labels op arg = Err e ->
  exists e', generate labels c ast = Err e'.
Proof.
  revert c. induction ast as [|[n|op' arg'] ast IH]; intros c Hin Hr; simpl in *.
  - done.
  - destruct Hin as [[=]|Hin]. eauto.
  - destruct Hin as [[= <- <-]|Hin].
    + rewrite Hr. eauto.
    + destruct (render labels op' arg'); [|eauto].
      destruct (IH (c + 1) Hin Hr) as [e' ->]. eauto.
Qed.

Lemma render_err (labels : gmap string Z) (op : string) (arg : option pyval) (e : error) :
  render labels op arg = Err e ->
  exists a, arg = Some a /\ is_branch op = true /\ lookup_label labels a = None /\
            e = UndefinedLabel (py_str a).
Proof.
  unfold render. destruct arg as [a|]; [|discriminate].
  destruct (is_branch op) eqn:Hb; [|discriminate].
  destruct (lookup_label labels a) eqn:Hl; [discriminate|].
  intros [= <-]. eauto.
Qed.

(** A branch to [name] renders with the address of the last declaration
    of [name] in the whole sequence. *)
Lemma generate_branch (ast : list node) (out : list string) (j : nat) (op name : string)
  (a : Z) :
  last_decl ast name a ->
  generate (resolve ast) 0 ast = Ok out ->
  opcodes_of ast !! j = Some (op, Some (VStr name)) ->
  is_branch op = true ->
  out !! j = Some (op ++ " " ++ py_str_int a)%string.
Proof.
  intros Hd Hg Hj Hb.
  apply generate_forall2 in Hg.
  destruct (Forall2_lookup_l _ _ _ _ _ Hg Hj) as (ins & Hins & Hr).
  apply resolve_lookup in Hd.
  simpl in Hr. unfold render in Hr. rewrite Hb in Hr. simpl in Hr.
  rewrite Hd in Hr. injection Hr as <-. done.
Qed.

End Pass2.

(** ** Strings and the regex parsers *)

Lemma str_app_nil_l (s : string) : (EmptyString ++ s)%string = s.
Proof. reflexivity. Qed.

Lemma str_app_cons (c : ascii) (s t : string) :
  (String c s ++ t)%string = String c (s ++ t).
Proof. reflexivity. Qed.

Lemma str_app_nil_r (s : string) : (s ++ EmptyString)%string = s.
Proof. induction s as [|c s IH]; [done|]. rewrite str_app_cons. congruence. Qed.

Lemma str_app_assoc (s t u : string) : (s ++ (t ++ u) = (s ++ t) ++ u)%string.
Proof. induction s as [|c s IH]; [done|]. rewrite !str_app_cons. congruence. Qed.

Lemma span_app (f : ascii -> bool) (d r : string) :
  all_chars f d = true -> stops_at f r = true -> span f (d ++ r) = (d, r).
Proof.
  induction d as [|c d IH]; intros Hd Hr.
  - destruct r as [|c r]; simpl in *; [done|]. now destruct (f c).
  - rewrite str_app_cons. simpl in *.
    apply andb_prop in Hd as [-> Hd]. now rewrite IH.
Qed.

Lemma span_all (f : ascii -> bool) (d : string) :
  all_chars f d = true -> span f d = (d, EmptyString).
Proof. intros H. rewrite <- (str_app_nil_r d) at 1. now apply span_app. Qed.

Lemma span_stop (f : ascii -> bool) (s : string) :
  stops_at f s = true -> span f s = (EmptyString, s).
Proof. destruct s as [|c s]; simpl; [done|]. now destruct (f c). Qed.

Lemma IDENTIFIER_app (id r : string) :
  is_identifier id = true -> stops_at is_ident_char r = true ->
  IDENTIFIER (id ++ r) = Some (id, r).
Proof.
  destruct id as [|c id]; [discriminate|]. rewrite str_app_cons. simpl.
  intros [-> Hid]%andb_prop Hr. now rewrite span_app.
Qed.

Lemma statement_empty : statement EmptyString = None.
Proof. reflexivity. Qed.

(** A single statement spanning the whole (non-blank-led) text. *)
Lemma parse_program_one (s : string) (n : node) :
  stops_at is_space s = true -> statement s = Some (n, EmptyString) ->
  parse program s = Ok [n].
Proof.
  intros Hs Hst. unfold parse, program, pskip_l, pmap, pseq, WHITESPACE.
  rewrite span_stop by done.
  destruct s as [|c s]; [discriminate|].
  unfold pmany. cbn [String.length many_fuel].
  rewrite Hst. destruct (String.length s); reflexivity.
Qed.

Lemma digit_not_space (c : ascii) : is_ascii_digit c = true -> is_space c = false.
Proof. destruct c as [[] [] [] [] [] [] [] []]; first [reflexivity | discriminate]. Qed.

Lemma IDENTIFIER_all (id : string) :
  is_identifier id = true -> IDENTIFIER id = Some (id, EmptyString).
Proof. intros H. rewrite <- (str_app_nil_r id) at 1. now apply IDENTIFIER_app. Qed.

(** An identifier directly followed by [':'] is taken by [LABEL]. *)
Lemma statement_label (id rest : string) :
  is_identifier id = true ->
  statement (id ++ String ":" rest) = Some (NLabel id, snd (span is_space rest)).
Proof.
  intros Hid. unfold statement, palt, LABEL, pmap, token, pskip_r, pmap, pseq.
  rewrite IDENTIFIER_app by done. simpl. destruct (span is_space rest); reflexivity.
Qed.

(** Evaluation of the combinators, one step at a time. *)

Lemma palt_l {A} (p q : parser A) (s : string) x : p s = Some x -> palt p q s = Some x.
Proof. unfold palt. now intros ->. Qed.

Lemma palt_r {A} (p q : parser A) (s : string) : p s = None -> palt p q s = q s.
Proof. unfold palt. now intros ->. Qed.

Lemma pmap_some {A B} (f : A -> B) (p : parser A) (s : string) x r :
  p s = Some (x, r) -> pmap f p s = Some (f x, r).
Proof. unfold pmap. now intros ->. Qed.

Lemma pseq_some {A B} (p : parser A) (q : parser B) (s : string) x r y r' :
  p s = Some (x, r) -> q r = Some (y, r') -> pseq p q s = Some ((x, y), r').
Proof. unfold pseq. now intros -> ->. Qed.

Lemma token_some {A} (p : parser A) (s : string) x r :
  p s = Some (x, r) -> token p s = Some (x, snd (span is_space r)).
Proof.
  intros H. unfold token, pskip_r, pmap, pseq, WHITESPACE. rewrite H.
  now destruct (span is_space r).
Qed.

(** The opcode alternative, once [PUSH] has succeeded. *)
Lemma statement_PUSH (s : string) (a : pyval) (r : string) :
  LABEL s = None -> PUSH s = Some (RList "push" a, r) ->
  statement s = Some (NOpcode "push" (Some a), snd (span is_space r)).
Proof.
  intros HL HP. unfold statement. rewrite palt_r by exact HL.
  unfold OPCODE, pmap. rewrite (token_some _ _ (RList "push" a) r); [reflexivity|].
  apply palt_l. now apply palt_l.
Qed.

Lemma PUSH_arg (s : string) (a : pyval) (r r' : string) :
  literal "push" s = Some ("push", r') ->
  palt NUMBER (palt BOOLEAN (pmap VStr (pcat FORWARD_SLASH IDENTIFIER))) r' = Some (a, r) ->
  PUSH s = Some (RList "push" a, r).
Proof.
  intros H1 H2. unfold PUSH, rlist.
  rewrite (pmap_some _ _ _ ("push", a) r); [reflexivity|].
  eapply pseq_some; eauto.
Qed.

Lemma statement_push_str (id : string) :
  is_identifier id = true ->
  statement ("push /" ++ id) =
    Some (NOpcode "push" (Some (VStr ("/" ++ id))), EmptyString).
Proof.
  intros Hid. apply (statement_PUSH _ _ EmptyString); [reflexivity|].
  apply (PUSH_arg _ _ _ ("/" ++ id)); [reflexivity|].
  rewrite palt_r by reflexivity. rewrite palt_r by reflexivity.
  apply pmap_some. unfold pcat.
  rewrite (pmap_some _ _ _ ("/", id) EmptyString); [reflexivity|].
  eapply pseq_some; [reflexivity|]. now apply IDENTIFIER_all.
Qed.

Lemma statement_push_int (ds : string) :
  ds <> EmptyString -> all_chars is_ascii_digit ds = true ->
  statement ("push " ++ ds) = Some (NOpcode "push" (Some (VInt (py_int ds))), EmptyString).
Proof.
  intros Hne Hds. destruct ds as [|c r]; [done|].
  pose proof Hds as Hds'. simpl in Hds'. apply andb_prop in Hds' as [Hc _].
  apply (statement_PUSH _ _ EmptyString); [reflexivity|].
  apply (PUSH_arg _ _ _ (String c r)).
  { unfold literal. rewrite (token_some _ _ "push" (" " ++ String c r)%string);
      [|reflexivity].
    rewrite span_app; [reflexivity|reflexivity|]. simpl. now rewrite (digit_not_space c Hc). }
  apply palt_l. unfold NUMBER. rewrite palt_r.
  - unfold INTEGER. rewrite (pmap_some _ _ _ (String c r) EmptyString); [reflexivity|].
    unfold INTEGER_RE. now rewrite span_all.
  - unfold FLOAT, pmap, FLOAT_RE. now rewrite span_all.
Qed.

Lemma statement_push_float (d1 d2 : string) :
  d2 <> EmptyString -> all_chars is_ascii_digit d1 = true ->
  all_chars is_ascii_digit d2 = true ->
  statement ("push " ++ d1 ++ String "." d2) =
    Some (NOpcode "push" (Some (VFloat (py_float (d1 ++ String "." d2)))), EmptyString).
Proof.
  intros Hne H1 H2.
  assert (Hsp : stops_at is_space (d1 ++ String "." d2) = true).
  { destruct d1 as [|c d1]; [reflexivity|].
    rewrite str_app_cons. simpl in *. apply andb_prop in H1 as [Hc _].
    now rewrite (digit_not_space c Hc). }
  apply (statement_PUSH _ _ EmptyString); [reflexivity|].
  apply (PUSH_arg _ _ _ (d1 ++ String "." d2)).
  { unfold literal.
    rewrite (token_some _ _ "push" (" " ++ (d1 ++ String "." d2))%string); [|reflexivity].
    rewrite span_app; [reflexivity|reflexivity|exact Hsp]. }
  apply palt_l. unfold NUMBER. apply palt_l.
  unfold FLOAT. rewrite (pmap_some _ _ _ (d1 ++ String "." d2)%string EmptyString);
    [reflexivity|]. unfold FLOAT_RE.
  rewrite span_app by auto. simpl. rewrite (span_all _ d2 H2).
  destruct d2 as [|c d2]; [done|]. reflexivity.
Qed.

(** ** What the parser can produce *)

Lemma palt_inv {A} (p q : parser A) (s : string) x :
  palt p q s = Some x -> p s = Some x \/ q s = Some x.
Proof. unfold palt. destruct (p s); auto. Qed.

Lemma pmap_inv {A B} (f : A -> B) (p : parser A) (s : string) y r :
  pmap f p s = Some (y, r) -> exists x, p s = Some (x, r) /\ y = f x.
Proof.
  unfold pmap. destruct (p s) as [[x r']|] eqn:Hp; [|done]. intros [= <- ->]. eauto.
Qed.

Lemma pseq_inv {A B} (p : parser A) (q : parser B) (s : string) x y r' :
  pseq p q s = Some ((x, y), r') -> exists r, p s = Some (x, r) /\ q r = Some (y, r').
Proof.
  unfold pseq. destruct (p s) as [[x' r]|] eqn:Hp; [|done].
  destruct (q r) as [[y' r'']|] eqn:Hq; [|done]. intros [= -> -> ->]. eauto.
Qed.

Lemma literal_inv (w : string) (s : string) x r : literal w s = Some (x, r) -> x = w.
Proof.
  unfold literal, token, pskip_r. intros ([x' r0] & H & ->)%pmap_inv.
  apply pseq_inv in H as (r1 & H & _). unfold word_b in H. simpl.
  destruct (strip_prefix w s); [|done].
  destruct (word_boundary _ _); [|done]. congruence.
Qed.

Lemma rword_ok (p : parser string) (s : string) x r :
  rword p s = Some (x, r) -> raw_ok x.
Proof. unfold rword. intros (y & _ & ->)%pmap_inv. exact I. Qed.

Lemma rlist_literal_ok (p : parser string) (q : parser pyval) (s : string) x r :
  (forall s' o r', p s' = Some (o, r') -> is_branch o = false) ->
  rlist (pseq p q) s = Some (x, r) -> raw_ok x.
Proof.
  intros Hp. unfold rlist. intros ([o a] & H & ->)%pmap_inv.
  apply pseq_inv in H as (r1 & H & _). apply Hp in H. simpl. congruence.
Qed.

Lemma presult_inv {A B} (b : B) (p : parser A) (s : string) y r :
  presult b p s = Some (y, r) -> y = b.
Proof. unfold presult. now intros (x & _ & ->)%pmap_inv. Qed.

Lemma statement_ok (s : string) n r : statement s = Some (n, r) -> node_ok n.
Proof.
  unfold statement. intros [H|H]%palt_inv.
  - unfold LABEL in H. apply pmap_inv in H as (x & _ & ->). exact I.
  - unfold OPCODE in H. apply pmap_inv in H as (x & H & ->).
    assert (Hx : raw_ok x); [|destruct x; simpl in *; auto].
    unfold token, pskip_r in H. apply pmap_inv in H as ([x' w] & H & Hx).
    apply pseq_inv in H as (r1 & H & _). simpl in Hx. subst x'.
    unfold STACK_OP, BRANCH_OP in H.
    repeat match goal with
    | H : palt _ _ _ = Some _ |- _ => apply palt_inv in H as [H|H]
    end;
    try (eapply rword_ok; exact H).
    + (* PUSH *)
      unfold PUSH in H. eapply rlist_literal_ok; [|exact H].
      intros s' o r' Ho%literal_inv. now subst.
    + (* jmp / jif / call *)
      unfold rlist in H. apply pmap_inv in H as ([o a] & H & ->).
      apply pseq_inv in H as (r2 & _ & H). apply pmap_inv in H as (name & _ & ->).
      simpl. eauto.
    + (* store / load / gstore / gload *)
      eapply rlist_literal_ok; [|exact H].
      intros s' o r' Ho.
      repeat match goal with
      | H : palt _ _ _ = Some _ |- _ => apply palt_inv in H as [H|H]
      end; apply presult_inv in Ho; now subst.
Qed.

Lemma many_fuel_ok (fuel : nat) (s : string) xs r :
  many_fuel fuel statement s = (xs, r) -> Forall node_ok xs.
Proof.
  revert s xs r. induction fuel as [|fuel IH]; intros s xs r H; simpl in H.
  - injection H as <- _. constructor.
  - destruct (statement s) as [[n r1]|] eqn:Hs.
    + destruct (many_fuel fuel statement r1) as [xs' r'] eqn:Hm.
      injection H as <- _. constructor; [eapply statement_ok; eauto|eauto].
    + injection H as <- _. constructor.
Qed.

Lemma parse_program_ok (src : string) (ast : list node) :
  parse program src = Ok ast -> Forall node_ok ast.
Proof.
  unfold parse, program, pskip_l, pmap, pseq, WHITESPACE, pmany.
  destruct (span is_space src) as [w s].
  destruct (many_fuel _ statement s) as [xs r] eqn:Hm.
  destruct r; [|discriminate]. intros [= <-]. eapply many_fuel_ok; eauto.
Qed.

Lemma program_total (src : string) : exists ast rest, program src = Some (ast, rest).
Proof.
  unfold program, pskip_l, pmap, pseq, WHITESPACE, pmany.
  destruct (span is_space src) as [w s].
  destruct (many_fuel _ statement s) as [xs r]. eauto.
Qed.

Lemma translate_one_push (s : string) (v : pyval) :
  parse program s = Ok [NOpcode "push" (Some v)] ->
  translate s = Ok [("push " ++ py_str v)%string].
Proof. intros H. unfold translate. now rewrite H. Qed.

(** Emission, written as one directive per (index, instruction) pair. *)
Lemma emit_from_directives (n : nat) (instructions : list string) :
  emit_from n instructions =
  fold_right String.append EmptyString
    (map (fun '(i, ins) => directive i ins)
         (combine (seq n (length instructions)) instructions)).
Proof.
  revert n. induction instructions as [|ins rest IH]; intros n; [done|].
  simpl. now rewrite IH.
Qed.

Lemma ident_char_is_word (c : ascii) : is_ident_char c = true -> is_word c = true.
Proof. unfold is_ident_char, is_word. intros ->. reflexivity. Qed.

Lemma strip_prefix_app (w s : string) : strip_prefix w (w ++ s) = Some s.
Proof.
  induction w as [|a w IH]; [done|]. rewrite str_app_cons. simpl.
  now rewrite Ascii.eqb_refl.
Qed.

(** A keyword directly followed by a word character is not matched. *)
Lemma literal_no_boundary (w : string) (l c : ascii) (rest : string) :
  last_char w = Some l -> is_word l = true -> is_word c = true ->
  literal w (w ++ String c rest) = None.
Proof.
  intros Hl Hwl Hc. unfold literal, token, pskip_r, pmap, pseq, word_b.
  rewrite strip_prefix_app. unfold word_boundary, word_at. simpl.
  now rewrite Hl, Hwl, Hc.
Qed.

Lemma In_last_decl (ast : list node) (name : string) :
  In (NLabel name) ast -> exists a, last_decl ast name a.
Proof.
  induction ast as [|x ast IH] using rev_ind; [done|].
  intros Hin.
  assert (Hx : x = NLabel name \/ x <> NLabel name).
  { destruct x as [n|op arg]; [|right; discriminate].
    destruct (decide (n = name)) as [->|Hn]; [now left|right; congruence]. }
  destruct Hx as [->|Hx].
  - exists (Z.of_nat (count_opcodes ast)), ast, []. intuition.
  - apply in_app_or in Hin as [Hin|[->|[]]]; [|done].
    destruct (IH Hin) as [a Ha]. exists a. now apply last_decl_snoc_other.
Qed.

Lemma resolve_none (ast : list node) (name : string) :
  resolve ast !! name = None <-> ~ In (NLabel name) ast.
Proof.
  split.
  - intros H Hin. destruct (In_last_decl _ _ Hin) as [a Ha].
    apply resolve_lookup in Ha. congruence.
  - intros Hin. destruct (resolve ast !! name) as [a|] eqn:E; [|done].
    apply resolve_lookup in E as (pre & post & -> & _).
    exfalso. apply Hin, in_or_app. simpl. auto.
Qed.

(* ================================================================== *)
(** * The specification's claims *)

(** C1: the label-table pass starts its counter at 0 and increments it
    exactly once per opcode node (labels leave it unchanged), and the
    address bound to a name in the finished table is the number of
    opcode nodes strictly before the (last) label node declaring it;
    at the moment a label node is processed, its name is bound to the
    number of opcode nodes before it. *)
Theorem label_address_is_opcode_count (ast : list node) (name : string) (a : Z) :
  fst (resolve_state ast) = Z.of_nat (count_opcodes ast) /\
  (forall st, fst (resolve_step st (NLabel name)) = fst st) /\
  (forall st op arg, fst (resolve_step st (NOpcode op arg)) = fst st + 1) /\
  snd (resolve_state (ast ++ [NLabel name])%list) !! name
    = Some (Z.of_nat (count_opcodes ast)) /\
  (resolve ast !! name = Some a <->
   exists pre post, ast = (pre ++ NLabel name :: post)%list /\
                    ~ In (NLabel name) post /\ a = Z.of_nat (count_opcodes pre)).
Proof.
  split; [apply resolve_counter|].
  split; [now intros [c m]|].
  split; [now intros [c m] op arg|].
  split.
  - rewrite resolve_state_snoc. pose proof (resolve_counter ast) as Hc.
    destruct (resolve_state ast) as [c m]. simpl in *. subst c.
    apply lookup_insert_eq.
  - apply resolve_lookup.
Qed.

(** C2 (counterexample): [push /hello] is rendered [push /hello]; the
    ['/'] marker is not stripped. *)
Lemma push_hello_keeps_marker :
  translate "push /hello" = Ok ["push /hello"] /\
  translate "push /hello" <> Ok ["push hello"].
Proof. split; [reflexivity|]. vm_compute. congruence. Qed.

(** C2 (amended): a [push] whose operand is ['/'] followed by an
    identifier renders as [push /<identifier>]: [FORWARD_SLASH + IDENTIFIER]
    concatenates the marker and the identifier, and the marker stays in
    the output. *)
Theorem push_string_keeps_marker (id : string) (Hid : is_identifier id = true) :
  translate ("push /" ++ id) = Ok [("push /" ++ id)%string].
Proof.
  rewrite (translate_one_push _ (VStr ("/" ++ id))); [reflexivity|].
  apply parse_program_one; [reflexivity|]. now apply statement_push_str.
Qed.

Lemma push_string_keeps_marker_witness :
  is_identifier "hello" = true /\ translate ("push /" ++ "hello") = Ok ["push /hello"].
Proof.
  split; [reflexivity|]. apply (push_string_keeps_marker "hello"). reflexivity.
Defined.

(** C3 (counterexample): with three declarations of [a], the [jmp a]
    between the second (address 0) and the third (address 1) renders
    with the address of the third one. *)
Lemma third_declaration_wins :
  parse program "a: a: jmp a a: hlt" =
    Ok [NLabel "a"; NLabel "a"; NOpcode "jmp" (Some (VStr "a")); NLabel "a";
        NOpcode "hlt" None] /\
  translate "a: a: jmp a a: hlt" = Ok ["jmp 1"; "hlt"] /\
  translate "a: a: jmp a a: hlt" <> Ok ["jmp 0"; "hlt"].
Proof. split; [reflexivity|]. split; [reflexivity|]. vm_compute. congruence. Qed.

(** C3 (amended): every branch to a name renders with the address of the
    last declaration of that name in the whole sequence, wherever the
    branch stands relative to the declarations: the table is complete
    before code generation starts. *)
Theorem branch_uses_last_declaration (ast pre post : list node) (out : list string)
  (name op : string) (j : nat)
  (Hsplit : ast = (pre ++ NLabel name :: post)%list)
  (Hlast : ~ In (NLabel name) post)
  (Hgen : generate (resolve ast) 0 ast = Ok out)
  (Hj : opcodes_of ast !! j = Some (op, Some (VStr name)))
  (Hb : is_branch op = true) :
  out !! j = Some (op ++ " " ++ py_str_int (Z.of_nat (count_opcodes pre)))%string.
Proof. eapply generate_branch; eauto. now exists pre, post. Qed.

Lemma branch_uses_last_declaration_witness :
  let ast := [NLabel "a"; NLabel "a"; NOpcode "jmp" (Some (VStr "a")); NLabel "a";
              NOpcode "hlt" None] in
  ~ In (NLabel "a") [NOpcode "hlt" None] /\
  generate (resolve ast) 0 ast = Ok ["jmp 1"; "hlt"] /\
  ["jmp 1"; "hlt"] !! 0%nat = Some "jmp 1".
Proof.
  intros ast. split; [intros [H|[]]; discriminate|]. split; [reflexivity|].
  apply (branch_uses_last_declaration ast
           [NLabel "a"; NLabel "a"; NOpcode "jmp" (Some (VStr "a"))]
           [NOpcode "hlt" None] ["jmp 1"; "hlt"] "a" "jmp" 0);
    [reflexivity | intros [H|[]]; discriminate | reflexivity | reflexivity | reflexivity].
Defined.

(** C4: a label declared exactly once gives every branch to it the same
    address, the number of opcodes before the declaration, whether the
    branch comes before (forward reference) or after it. *)
Theorem single_declaration_address (ast pre post : list node) (out : list string)
  (name op : string) (j : nat)
  (Hsplit : ast = (pre ++ NLabel name :: post)%list)
  (Hpre : ~ In (NLabel name) pre)
  (Hpost : ~ In (NLabel name) post)
  (Hgen : generate (resolve ast) 0 ast = Ok out)
  (Hj : opcodes_of ast !! j = Some (op, Some (VStr name)))
  (Hb : is_branch op = true) :
  out !! j = Some (op ++ " " ++ py_str_int (Z.of_nat (count_opcodes pre)))%string.
Proof. eapply generate_branch; eauto. now exists pre, post. Qed.

(** [jmp end] ... [end: hlt]: the forward jump gets the address of [hlt]. *)
Lemma single_declaration_address_witness :
  let ast := [NOpcode "jmp" (Some (VStr "end")); NOpcode "push" (Some (VInt 1));
              NLabel "end"; NOpcode "hlt" None] in
  parse program "jmp end
push 1
end: hlt" = Ok ast /\
  translate "jmp end
push 1
end: hlt" = Ok ["jmp 2"; "push 1"; "hlt"] /\
  ["jmp 2"; "push 1"; "hlt"] !! 0%nat = Some "jmp 2".
Proof.
  intros ast. split; [reflexivity|]. split; [reflexivity|].
  apply (single_declaration_address ast
           [NOpcode "jmp" (Some (VStr "end")); NOpcode "push" (Some (VInt 1))]
           [NOpcode "hlt" None] ["jmp 2"; "push 1"; "hlt"] "end" "jmp" 0);
    [reflexivity | intros [H|[H|[]]]; discriminate | intros [H|[]]; discriminate
    | reflexivity | reflexivity | reflexivity].
Defined.

(** C6: when the run succeeds, the output holds one directive per opcode
    node, in source order, the i-th pairing [__svm.i] with the i-th
    rendered instruction in double quotes; labels give no directive. *)
Theorem directives_per_instruction (src : string) (ast : list node)
  (instructions : list string) (out : option string)
  (Hparse : parse program src = Ok ast)
  (Hgen : generate (resolve ast) 0 ast = Ok instructions) :
  main src out = (Ok tt, Some (emit instructions)) /\
  length instructions = count_opcodes ast /\
  Forall2 (fun oa ins => render (resolve ast) oa.1 oa.2 = Ok ins)
          (opcodes_of ast) instructions /\
  emit instructions =
    fold_right String.append EmptyString
      (map (fun '(i, ins) => directive i ins)
           (combine (seq 0 (length instructions)) instructions)).
Proof.
  split; [unfold main, translate; now rewrite Hparse, Hgen|].
  split; [eapply generate_length; eauto|].
  split; [eapply generate_forall2; eauto|].
  apply emit_from_directives.
Qed.

Lemma directives_per_instruction_witness :
  let src := "start: push 1
push 2
add
jmp start
" in
  parse program src = Ok [NLabel "start"; NOpcode "push" (Some (VInt 1));
                          NOpcode "push" (Some (VInt 2)); NOpcode "add" None;
                          NOpcode "jmp" (Some (VStr "start"))] /\
  main src None = (Ok tt, Some (emit ["push 1"; "push 2"; "add"; "jmp 0"])).
Proof.
  intros src. split; [reflexivity|].
  apply (directives_per_instruction src
           [NLabel "start"; NOpcode "push" (Some (VInt 1)); NOpcode "push" (Some (VInt 2));
            NOpcode "add" None; NOpcode "jmp" (Some (VStr "start"))]
           ["push 1"; "push 2"; "add"; "jmp 0"] None); reflexivity.
Defined.

(** C8: every keyword parser [literal kw] fails on text where [kw] is
    followed by a further identifier character, so an identifier that
    begins with a keyword is never read as the keyword: [pop] does not
    match inside [popular], and [store popular] is a [store_l] of the
    variable [popular]. *)
Theorem keyword_needs_boundary (kw : string) (c : ascii) (rest : string)
  (Hkw : In kw keywords) (Hc : is_ident_char c = true) :
  literal kw (kw ++ String c rest) = None /\
  literal "pop" "popular" = None /\
  parse program "store popular" = Ok [NOpcode "store_l" (Some (VStr "popular"))].
Proof.
  split; [|split; reflexivity].
  assert (Hall : forallb (fun w => match last_char w with
                                   | Some l => is_word l | None => false end)
                         keywords = true) by reflexivity.
  rewrite forallb_forall in Hall. specialize (Hall kw Hkw).
  destruct (last_char kw) as [l|] eqn:Hl; [|discriminate].
  apply (literal_no_boundary kw l); auto using ident_char_is_word.
Qed.

Lemma keyword_needs_boundary_witness :
  In "pop" keywords /\ is_ident_char "u" = true /\
  literal "pop" ("pop" ++ String "u" "lar") = None.
Proof.
  split; [simpl; tauto|]. split; [reflexivity|].
  apply (keyword_needs_boundary "pop" "u" "lar"); [simpl; tauto|reflexivity].
Defined.

(** C9: a numeric push operand is rendered from its value, not from its
    spelling: a digit string [ds] renders as [str(int(ds))] and a float
    literal [d1.d2] as [repr(float(d1.d2))]; so [push 007] renders as
    [push 7] and [push .5] as [push 0.5]. The integer case is stated for
    literals of at most 4300 digits, CPython's default limit for [int()]
    on a decimal string. *)
Theorem numeric_operands_normalized (ds d1 d2 : string)
  (Hds : ds <> EmptyString /\ all_chars is_ascii_digit ds = true /\
         (String.length ds <= 4300)%nat)
  (Hf : d2 <> EmptyString /\ all_chars is_ascii_digit d1 = true /\
        all_chars is_ascii_digit d2 = true) :
  translate ("push " ++ ds) = Ok [("push " ++ py_str_int (py_int ds))%string] /\
  translate ("push " ++ d1 ++ String "." d2) =
    Ok [("push " ++ py_repr_float (py_float (d1 ++ String "." d2)))%string] /\
  translate "push 007" = Ok ["push 7"] /\
  translate "push .5" = Ok ["push 0.5"].
Proof.
  destruct Hds as (Hne & Hd & _). destruct Hf as (Hne2 & H1 & H2).
  split; [|split; [|split; reflexivity]].
  - rewrite (translate_one_push _ (VInt (py_int ds))); [reflexivity|].
    apply parse_program_one; [reflexivity|]. now apply statement_push_int.
  - rewrite (translate_one_push _ (VFloat (py_float (d1 ++ String "." d2)))); [reflexivity|].
    apply parse_program_one; [reflexivity|]. now apply statement_push_float.
Qed.

Lemma numeric_operands_normalized_witness :
  translate ("push " ++ "007") = Ok [("push " ++ py_str_int (py_int "007"))%string] /\
  translate ("push " ++ "" ++ String "." "5") =
    Ok [("push " ++ py_repr_float (py_float ("" ++ String "." "5")))%string].
Proof.
  destruct (numeric_operands_normalized "007" "" "5") as (Hi & Hfl & _).
  - split; [discriminate|]. split; [reflexivity|]. simpl; lia.
  - split; [discriminate|]. split; reflexivity.
  - split; [exact Hi|exact Hfl].
Defined.

(** C10: an identifier directly followed by [:] is read as a label by
    [statement], also when the identifier is an opcode mnemonic, and a
    label takes no address slot in the label pass; [add:] is the label
    [add]. *)
Theorem label_wins_over_opcode (id rest : string) (Hid : is_identifier id = true) :
  statement (id ++ String ":" rest) = Some (NLabel id, snd (span is_space rest)) /\
  (forall st, fst (resolve_step st (NLabel id)) = fst st) /\
  parse program "add:" = Ok [NLabel "add"].
Proof.
  split; [now apply statement_label|]. split; [|reflexivity].
  intros [a l]. reflexivity.
Qed.

Lemma label_wins_over_opcode_witness :
  statement ("add" ++ String ":" " hlt") = Some (NLabel "add", "hlt").
Proof.
  destruct (label_wins_over_opcode "add" " hlt") as [H _]; [reflexivity|].
  exact H.
Defined.

(* ================================================================== *)
(** * Further properties of the script *)

(** ** How far the parsers move *)

Lemma span_length (f : ascii -> bool) (s : string) :
  (String.length (snd (span f s)) <= String.length s)%nat.
Proof.
  induction s as [|c s IH]; simpl; [lia|].
  destruct (f c); [destruct (span f s) eqn:E; simpl in *; lia|simpl; lia].
Qed.

Lemma strip_prefix_length (w s r : string) :
  strip_prefix w s = Some r -> String.length s = (String.length w + String.length r)%nat.
Proof.
  revert s. induction w as [|a w IH]; intros [|b s]; simpl; try (intros [= <-]; done);
    try discriminate.
  destruct (Ascii.eqb a b); [intros H; apply IH in H; lia|discriminate].
Qed.

Lemma consumes_keeps {A} (p : parser A) : consumes p -> keeps_len p.
Proof. intros H s x r Hp. apply H in Hp. lia. Qed.

Lemma pmap_keeps {A B} (f : A -> B) p : keeps_len p -> keeps_len (pmap f p).
Proof. intros H s y r (x & Hp & _)%pmap_inv. eauto. Qed.

Lemma pmap_consumes {A B} (f : A -> B) p : consumes p -> consumes (pmap f p).
Proof. intros H s y r (x & Hp & _)%pmap_inv. eauto. Qed.

Lemma presult_consumes {A B} (b : B) (p : parser A) : consumes p -> consumes (presult b p).
Proof. apply pmap_consumes. Qed.

Lemma palt_keeps {A} (p q : parser A) : keeps_len p -> keeps_len q -> keeps_len (palt p q).
Proof. intros Hp Hq s x r [H|H]%palt_inv; eauto. Qed.

Lemma palt_consumes {A} (p q : parser A) : consumes p -> consumes q -> consumes (palt p q).
Proof. intros Hp Hq s x r [H|H]%palt_inv; eauto. Qed.

Lemma pseq_consumes_l {A B} (p : parser A) (q : parser B) :
  consumes p -> keeps_len q -> consumes (pseq p q).
Proof.
  intros Hp Hq s [x y] r (r1 & H1 & H2)%pseq_inv.
  apply Hp in H1. apply Hq in H2. lia.
Qed.

Lemma pseq_keeps {A B} (p : parser A) (q : parser B) :
  keeps_len p -> keeps_len q -> keeps_len (pseq p q).
Proof.
  intros Hp Hq s [x y] r (r1 & H1 & H2)%pseq_inv.
  apply Hp in H1. apply Hq in H2. lia.
Qed.

Lemma WHITESPACE_keeps : keeps_len WHITESPACE.
Proof.
  intros s x r [= H]. pose proof (span_length is_space s) as L.
  rewrite H in L. exact L.
Qed.

Lemma token_consumes {A} (p : parser A) : consumes p -> consumes (token p).
Proof.
  intros H. unfold token, pskip_r. apply pmap_consumes, pseq_consumes_l; auto.
  apply WHITESPACE_keeps.
Qed.

Lemma literal_consumes (w : string) : w <> EmptyString -> consumes (literal w).
Proof.
  intros Hw. apply token_consumes. intros s x r. unfold word_b.
  destruct (strip_prefix w s) as [r'|] eqn:E; [|done].
  apply strip_prefix_length in E.
  destruct (word_boundary _ _); [intros [= _ <-]|done].
  destruct w; [done|]. simpl in E. lia.
Qed.

Lemma IDENTIFIER_consumes : consumes IDENTIFIER.
Proof.
  intros [|c s] x r; simpl; [done|].
  destruct (is_ident_start c); [|done].
  pose proof (span_length is_ident_char s) as L.
  destruct (span is_ident_char s). intros [= _ <-]. simpl in *. lia.
Qed.

Lemma pstring_consumes (w : string) : w <> EmptyString -> consumes (pstring w).
Proof.
  intros Hw s x r. unfold pstring.
  destruct (strip_prefix w s) as [r'|] eqn:E; [|done]. intros [= _ <-].
  apply strip_prefix_length in E. destruct w; [done|]. simpl in E. lia.
Qed.

Lemma rlist_consumes (p : parser (string * pyval)) : consumes p -> consumes (rlist p).
Proof. apply pmap_consumes. Qed.

Lemma pcat_keeps (p q : parser string) : keeps_len p -> keeps_len q -> keeps_len (pcat p q).
Proof. intros Hp Hq. apply pmap_keeps, pseq_keeps; auto. Qed.

Lemma NUMBER_keeps : keeps_len NUMBER.
Proof.
  intros s x r [H|H]%palt_inv; apply pmap_inv in H as (t & H & _).
  - unfold FLOAT_RE in H. pose proof (span_length is_ascii_digit s) as L1.
    destruct (span is_ascii_digit s) as [d1 r1]. simpl in L1.
    destruct r1 as [|c r2]; [done|]. destruct c as [[] [] [] [] [] [] [] []]; try done.
    pose proof (span_length is_ascii_digit r2) as L2.
    destruct (span is_ascii_digit r2) as [[|c2 d2] r3]; [done|]. injection H as _ <-.
    simpl in *. lia.
  - unfold INTEGER_RE in H. pose proof (span_length is_ascii_digit s) as L1.
    destruct (span is_ascii_digit s) as [[|c d] r1]; [done|]. injection H as _ <-. done.
Qed.

Ltac consumes_tac :=
  repeat first
    [ apply literal_consumes; discriminate | apply pstring_consumes; discriminate
    | apply consumes_keeps, literal_consumes; discriminate
    | apply NUMBER_keeps | apply IDENTIFIER_consumes | apply token_consumes
    | apply palt_consumes | apply presult_consumes | apply rlist_consumes
    | apply pmap_consumes | apply pseq_consumes_l | apply palt_keeps | apply pcat_keeps
    | apply pmap_keeps | apply consumes_keeps
    | progress unfold rword ].

Lemma statement_consumes : consumes statement.
Proof.
  unfold statement, LABEL, OPCODE, pskip_r, STACK_OP, PUSH, POP, DUP, DOT,
    ARITHMETIC_OP, ADD, SUB, MUL, DIV, POW, MIN, MAX, BRANCH_OP, JMP, JIF, CALL, RET,
    LOGICAL_OP, EQ, NE, LT, LE, GT, GE, IO_OP, STORE, LOAD, GSTORE, GLOAD, HLT,
    BOOLEAN, TRUE, FALSE, FORWARD_SLASH, COLON.
  consumes_tac.
Qed.

(** ** [many()] with enough fuel is the unbounded loop *)

Lemma many_fuel_stops {A} (p : parser A) (fuel : nat) (s : string) :
  consumes p -> (String.length s < fuel)%nat ->
  p (snd (many_fuel fuel p s)) = None.
Proof.
  intros Hp. revert s. induction fuel as [|f IH]; intros s Hl; [lia|]. simpl.
  destruct (p s) as [[x r]|] eqn:E.
  - pose proof (Hp _ _ _ E). specialize (IH r ltac:(lia)).
    destruct (many_fuel f p r) eqn:M. exact IH.
  - exact E.
Qed.


Lemma program_rest (src : string) ast rest :
  program src = Some (ast, rest) ->
  exists w s, span is_space src = (w, s) /\
              many_fuel (S (String.length s)) statement s = (ast, rest).
Proof.
  unfold program, pskip_l, pmap, pseq, WHITESPACE, pmany.
  destruct (span is_space src) as [w s].
  destruct (many_fuel _ statement s) as [xs r] eqn:M. intros [= <- <-]. eauto.
Qed.

(** Extra: [statement.many()] reads statements until [statement] fails,
    so the text [program] leaves over is a place where no statement
    starts; [parse] accepts exactly when that text is empty. *)
Theorem program_stops_where_no_statement (src rest : string) (ast : list node)
  (H : program src = Some (ast, rest)) :
  statement rest = None /\ (parse program src = Ok ast <-> rest = EmptyString).
Proof.
  split.
  - apply program_rest in H as (w & s & _ & M).
    pose proof (many_fuel_stops statement (S (String.length s)) s statement_consumes
                  ltac:(lia)) as Hs.
    rewrite M in Hs. exact Hs.
  - unfold parse. rewrite H. destruct rest; split; congruence.
Qed.

Lemma program_stops_where_no_statement_witness :
  program "pop 5" = Some ([NOpcode "pop" None], "5") /\ statement "5" = None.
Proof.
  split; [reflexivity|].
  apply (program_stops_where_no_statement "pop 5" "5" [NOpcode "pop" None]).
  reflexivity.
Defined.

(** ** Blank text *)




(** Extra: a source of whitespace only (the empty source included) is a
    valid program with no statements; the run succeeds and writes an
    empty output file. *)
Theorem blank_source_empty_output (src : string) (out : option string)
  (Hblank : all_chars is_space src = true) :
  parse program src = Ok [] /\ main src out = (Ok tt, Some EmptyString).
Proof.
  assert (Hp : parse program src = Ok []).
  { unfold parse, program, pskip_l, pmap, pseq, WHITESPACE. rewrite span_all by exact Hblank.
    reflexivity. }
  split; [exact Hp|]. unfold main, translate. now rewrite Hp.
Qed.

Lemma blank_source_empty_output_witness :
  main " 
 " (Some "old") = (Ok tt, Some EmptyString).
Proof. apply (blank_source_empty_output _ (Some "old")). reflexivity. Defined.

(** ** The label table and the addresses it gives *)

Lemma resolve_range (ast : list node) (name : string) (a : Z) :
  resolve ast !! name = Some a -> 0 <= a <= Z.of_nat (count_opcodes ast).
Proof.
  intros (pre & post & -> & _ & ->)%resolve_lookup.
  rewrite count_opcodes_app. simpl. lia.
Qed.

(** Extra: the label table built by the first pass has a key for exactly
    the declared label names, and each address it holds lies between 0
    and the number of instructions (the number itself for a label after
    the last instruction). *)
Theorem label_table_range (ast : list node) (name : string) :
  (is_Some (resolve ast !! name) <-> In (NLabel name) ast) /\
  (forall a, resolve ast !! name = Some a -> 0 <= a <= Z.of_nat (count_opcodes ast)).
Proof.
  split; [|apply resolve_range].
  split.
  - intros [a (pre & post & -> & _)%resolve_lookup].
    apply in_or_app. right. now left.
  - intros (a & Ha)%In_last_decl. exists a. now apply resolve_lookup.
Qed.

Section Pass2_more.
Local Open Scope list_scope.

(** Extra: in a successful code generation, every branch instruction is
    rendered as its opcode and a number between 0 and the number of
    rendered instructions. *)
Theorem branch_target_in_range (ast : list node) (instructions : list string)
  (j : nat) (op name : string)
  (Hgen : generate (resolve ast) 0 ast = Ok instructions)
  (Hj : opcodes_of ast !! j = Some (op, Some (VStr name)))
  (Hb : is_branch op = true) :
  exists a, instructions !! j = Some (op ++ " " ++ py_str_int a)%string /\
            0 <= a <= Z.of_nat (length instructions).
Proof.
  pose proof (generate_length _ _ _ _ Hgen) as Hlen.
  apply generate_forall2 in Hgen.
  destruct (Forall2_lookup_l _ _ _ _ _ Hgen Hj) as (ins & Hins & Hr).
  simpl in Hr. unfold render in Hr. rewrite Hb in Hr. simpl in Hr.
  destruct (resolve ast !! name) as [a|] eqn:Ha; [|discriminate].
  injection Hr as <-. exists a. split; [exact Hins|].
  rewrite Hlen. now apply resolve_range in Ha.
Qed.

(** Code generation reads the label table only at the names branch
    instructions carry. *)
Lemma generate_labels_agree (L1 L2 : gmap string Z) (c : Z) (ast : list node) :
  (forall op a, In (NOpcode op (Some a)) ast -> is_branch op = true ->
                lookup_label L1 a = lookup_label L2 a) ->
  generate L1 c ast = generate L2 c ast.
Proof.
  revert c. induction ast as [|[name|op arg] ast IH]; intros c Hag; [done| |].
  - simpl. apply IH. intros op a Hin. apply Hag. now right.
  - simpl. rewrite IH by (intros op' a Hin; apply Hag; now right).
    assert (Hr : render L1 op arg = render L2 op arg).
    { unfold render. destruct arg as [a|]; [|done].
      destruct (is_branch op) eqn:Hb; [|done].
      rewrite (Hag op a) by (auto; now left). done. }
    now rewrite Hr.
Qed.

Lemma generate_skip_label (L : gmap string Z) (c : Z) (pre post : list node) (x : string) :
  generate L c (pre ++ NLabel x :: post) = generate L c (pre ++ post).
Proof.
  revert c. induction pre as [|[name|op arg] pre IH]; intros c; simpl; [done|auto|].
  now rewrite IH.
Qed.

Lemma resolve_fold_agree (x : string) (l : list node) (c : Z) (m1 m2 : gmap string Z) :
  (forall k, k <> x -> m1 !! k = m2 !! k) ->
  fst (fold_left resolve_step l (c, m1)) = fst (fold_left resolve_step l (c, m2)) /\
  (forall k, k <> x -> snd (fold_left resolve_step l (c, m1)) !! k =
                       snd (fold_left resolve_step l (c, m2)) !! k).
Proof.
  revert c m1 m2. induction l as [|[name|op arg] l IH]; intros c m1 m2 Hm; simpl; [auto|..].
  - apply IH. intros k Hk. destruct (decide (name = k)) as [->|Hne].
    + now rewrite !lookup_insert_eq.
    + rewrite !lookup_insert_ne by exact Hne. auto.
  - now apply IH.
Qed.

Lemma resolve_insert_label (pre post : list node) (x k : string) :
  k <> x -> resolve (pre ++ NLabel x :: post) !! k = resolve (pre ++ post) !! k.
Proof.
  intros Hk. unfold resolve, resolve_state. rewrite !fold_left_app. simpl.
  destruct (fold_left resolve_step pre (0, ∅)) as [c m].
  apply (resolve_fold_agree x post c (<[x:=c]> m) m); [|exact Hk].
  intros k' Hk'. now rewrite lookup_insert_ne by congruence.
Qed.

(** Extra: a label declaration that no branch instruction names changes
    nothing: inserting or removing it anywhere leaves the result of code
    generation (instructions or error) as it was. *)
Theorem unreferenced_label_irrelevant (pre post : list node) (x : string)
  (Hx : forall op, In (NOpcode op (Some (VStr x))) (pre ++ post) -> is_branch op = false) :
  generate (resolve (pre ++ NLabel x :: post)) 0 (pre ++ NLabel x :: post) =
  generate (resolve (pre ++ post)) 0 (pre ++ post).
Proof.
  rewrite generate_skip_label. apply generate_labels_agree.
  intros op [name| |] Hin Hb; simpl; try done.
  apply resolve_insert_label. intros ->. apply Hx in Hin. congruence.
Qed.

End Pass2_more.

Lemma unreferenced_label_irrelevant_witness :
  generate (resolve [NOpcode "push" (Some (VInt 1)); NLabel "b";
                     NOpcode "jmp" (Some (VStr "a")); NLabel "a"]) 0
           [NOpcode "push" (Some (VInt 1)); NLabel "b";
            NOpcode "jmp" (Some (VStr "a")); NLabel "a"] =
  generate (resolve [NOpcode "push" (Some (VInt 1));
                     NOpcode "jmp" (Some (VStr "a")); NLabel "a"]) 0
           [NOpcode "push" (Some (VInt 1)); NOpcode "jmp" (Some (VStr "a")); NLabel "a"].
Proof.
  apply (unreferenced_label_irrelevant [NOpcode "push" (Some (VInt 1))]
           [NOpcode "jmp" (Some (VStr "a")); NLabel "a"] "b").
  intros op Hin. simpl in Hin. intuition congruence.
Defined.

Lemma branch_target_in_range_witness :
  exists a, ["jmp 1"; "hlt"] !! 0%nat = Some ("jmp" ++ " " ++ py_str_int a)%string /\
            0 <= a <= Z.of_nat (length ["jmp 1"; "hlt"]).
Proof.
  apply (branch_target_in_range [NLabel "a"; NOpcode "jmp" (Some (VStr "a")); NLabel "a";
                                 NOpcode "hlt" None] ["jmp 1"; "hlt"] 0 "jmp" "a");
    reflexivity.
Defined.

(** ** Mnemonics renamed by the grammar *)

Lemma span_rest_stops (f : ascii -> bool) (s : string) : stops_at f (snd (span f s)) = true.
Proof.
  induction s as [|c s IH]; [done|]. simpl.
  destruct (f c) eqn:E; [destruct (span f s); exact IH|simpl; now rewrite E].
Qed.

Lemma ident_start_not_space (c : ascii) : is_ident_start c = true -> is_space c = false.
Proof. destruct c as [[] [] [] [] [] [] [] []]; first [reflexivity | discriminate]. Qed.

Lemma identifier_app_stops_space (id rest : string) :
  is_identifier id = true -> stops_at is_space (id ++ rest) = true.
Proof.
  destruct id as [|c id]; [discriminate|]. rewrite str_app_cons. simpl.
  intros [Hc _]%andb_prop. now rewrite ident_start_not_space.
Qed.

(** A keyword followed by a space. *)
Lemma literal_sp (w rest : string) (l : ascii) :
  last_char w = Some l -> is_word l = true ->
  literal w (w ++ " " ++ rest) = Some (w, snd (span is_space rest)).
Proof.
  intros Hl Hw. unfold literal.
  rewrite (token_some _ _ w (" " ++ rest)%string).
  - rewrite str_app_cons, str_app_nil_l. simpl. now destruct (span is_space rest).
  - unfold word_b. rewrite strip_prefix_app, str_app_cons, str_app_nil_l.
    unfold word_boundary, word_at. simpl. now rewrite Hl, Hw.
Qed.

Lemma presult_some {A B} (b : B) (p : parser A) (s : string) x r :
  p s = Some (x, r) -> presult b p s = Some (b, r).
Proof. unfold presult, pmap. now intros ->. Qed.

(** The opcode alternative of [statement], once an opcode parser has
    succeeded. *)
Lemma statement_raw_tok (s : string) (x : raw) (r : string) :
  LABEL s = None ->
  palt STACK_OP (palt ARITHMETIC_OP (palt BRANCH_OP
    (palt LOGICAL_OP (palt IO_OP (rword HLT))))) s = Some (x, r) ->
  statement s = Some (opcode x, snd (span is_space r)).
Proof.
  intros HL H. unfold statement. rewrite palt_r by exact HL.
  unfold OPCODE. rewrite (pmap_some _ _ _ x (snd (span is_space r))); [reflexivity|].
  exact (token_some _ _ x r H).
Qed.

Lemma statement_raw (s : string) (x : raw) (r : string) :
  LABEL s = None -> stops_at is_space r = true ->
  palt STACK_OP (palt ARITHMETIC_OP (palt BRANCH_OP
    (palt LOGICAL_OP (palt IO_OP (rword HLT))))) s = Some (x, r) ->
  statement s = Some (opcode x, r).
Proof.
  intros HL Hr H. rewrite (statement_raw_tok s x r HL H). now rewrite span_stop.
Qed.

Lemma IO_OP_some (s o r1 id rest : string) :
  palt STORE (palt LOAD (palt GSTORE GLOAD)) s = Some (o, r1) ->
  pmap VStr IDENTIFIER r1 = Some (VStr id, rest) ->
  IO_OP s = Some (RList o (VStr id), rest).
Proof.
  intros H1 H2. unfold IO_OP, rlist.
  rewrite (pmap_some _ _ _ (o, VStr id) rest); [reflexivity|]. eapply pseq_some; eauto.
Qed.

Lemma statement_io (kw out id rest : string) :
  In (kw, out) io_mnemonics -> is_identifier id = true ->
  stops_at is_ident_char rest = true ->
  statement (kw ++ " " ++ id ++ rest) =
    Some (NOpcode out (Some (VStr id)), snd (span is_space rest)).
Proof.
  intros Hkw Hid Hr.
  apply (statement_raw_tok _ (RList out (VStr id)));
  simpl in Hkw; repeat destruct Hkw as [Hkw|Hkw]; try (injection Hkw as <- <-); try done;
  first [reflexivity|
  (repeat (rewrite palt_r by reflexivity);
   apply palt_l; eapply IO_OP_some;
   [ repeat (rewrite palt_r by reflexivity);
     first [apply palt_l|idtac]; eapply presult_some; (eapply literal_sp; reflexivity)
   | rewrite span_stop by (now apply identifier_app_stops_space);
     apply pmap_some; now apply IDENTIFIER_app ])].
Qed.

(** Extra: a comparison mnemonic followed by a space is read as the
    opcode the grammar renames it to ([eq] as [iseq], [ne] as [isneq],
    [lt] as [islt], [le] as [isle], [gt] as [isgt], [ge] as [isge]),
    whatever text follows. *)
Theorem comparison_mnemonics_renamed (kw out rest : string)
  (Hkw : In (kw, out) logical_mnemonics) :
  statement (kw ++ " " ++ rest) = Some (NOpcode out None, snd (span is_space rest)).
Proof.
  apply (statement_raw _ (RWord out)); [|apply span_rest_stops|];
  simpl in Hkw; repeat destruct Hkw as [Hkw|Hkw]; try (injection Hkw as <- <-); try done;
  first [reflexivity|
  (repeat (rewrite palt_r by reflexivity);
   apply palt_l; unfold LOGICAL_OP, rword; apply pmap_some;
   repeat (rewrite palt_r by reflexivity);
   first [apply palt_l|idtac]; eapply presult_some; (eapply literal_sp; reflexivity))].
Qed.

Lemma comparison_mnemonics_renamed_witness :
  statement ("lt" ++ " " ++ "hlt") = Some (NOpcode "islt" None, "hlt").
Proof. apply (comparison_mnemonics_renamed "lt" "islt" "hlt"). simpl; tauto. Defined.

(** Extra: a storage mnemonic followed by a space and an identifier is
    read as the renamed opcode ([store] as [store_l], [load] as [load_l],
    [gstore] as [store_g], [gload] as [load_g]) with that identifier; a
    program of that one instruction renders as the renamed opcode and the
    identifier as written (it is never looked up in the label table). *)
Theorem storage_mnemonics_renamed (kw out id rest : string)
  (Hkw : In (kw, out) io_mnemonics) (Hid : is_identifier id = true)
  (Hr : stops_at is_ident_char rest = true) :
  statement (kw ++ " " ++ id ++ rest) =
    Some (NOpcode out (Some (VStr id)), snd (span is_space rest)) /\
  translate (kw ++ " " ++ id) = Ok [(out ++ " " ++ id)%string].
Proof.
  split; [now apply statement_io|].
  pose proof (statement_io kw out id EmptyString Hkw Hid eq_refl) as H.
  rewrite str_app_nil_r in H. simpl in H.
  unfold translate.
  simpl in Hkw; repeat destruct Hkw as [Hkw|Hkw]; try (injection Hkw as <- <-); try done;
  (pose proof (fun Hs => parse_program_one _ _ Hs H) as P; rewrite P by reflexivity; reflexivity).
Qed.

Lemma storage_mnemonics_renamed_witness :
  translate ("gstore" ++ " " ++ "score") = Ok ["store_g score"].
Proof.
  apply (storage_mnemonics_renamed "gstore" "store_g" "score" EmptyString);
    [simpl; tauto|reflexivity|reflexivity].
Defined.

(** Extra: the boolean operands of [push] are read as the integers 1
    ([true]) and 0 ([false]). *)
Theorem push_boolean_as_int (rest : string) :
  statement ("push true" ++ " " ++ rest) =
    Some (NOpcode "push" (Some (VInt 1)), snd (span is_space rest)) /\
  statement ("push false" ++ " " ++ rest) =
    Some (NOpcode "push" (Some (VInt 0)), snd (span is_space rest)).
Proof.
  split.
  - apply (statement_raw _ (RList "push" (VInt 1))); [reflexivity|apply span_rest_stops|].
    apply palt_l, palt_l. unfold PUSH, rlist.
    rewrite (pmap_some _ _ _ ("push", VInt 1) (snd (span is_space rest))); [reflexivity|].
    apply (pseq_some _ _ _ "push" ("true" ++ " " ++ rest)); [reflexivity|].
    rewrite palt_r by reflexivity. apply palt_l, palt_l.
    eapply presult_some. eapply literal_sp; reflexivity.
  - apply (statement_raw _ (RList "push" (VInt 0))); [reflexivity|apply span_rest_stops|].
    apply palt_l, palt_l. unfold PUSH, rlist.
    rewrite (pmap_some _ _ _ ("push", VInt 0) (snd (span is_space rest))); [reflexivity|].
    apply (pseq_some _ _ _ "push" ("false" ++ " " ++ rest)); [reflexivity|].
    rewrite palt_r by reflexivity. apply palt_l. unfold BOOLEAN.
    rewrite palt_r by reflexivity.
    eapply presult_some. eapply literal_sp; reflexivity.
Qed.

(** ** Branch targets are names *)

Lemma palt_none {A} (p q : parser A) (s : string) :
  p s = None -> q s = None -> palt p q s = None.
Proof. unfold palt. now intros -> ->. Qed.

Lemma pmap_none {A B} (f : A -> B) (p : parser A) (s : string) :
  p s = None -> pmap f p s = None.
Proof. unfold pmap. now intros ->. Qed.

Lemma pseq_none_r {A B} (p : parser A) (q : parser B) (s : string) x r :
  p s = Some (x, r) -> q r = None -> pseq p q s = None.
Proof. unfold pseq. now intros -> ->. Qed.

Lemma digit_not_ident_start (c : ascii) : is_ascii_digit c = true -> is_ident_start c = false.
Proof. destruct c as [[] [] [] [] [] [] [] []]; first [reflexivity | discriminate]. Qed.

(** Extra: the operand of [jmp], [jif] and [call] must be a label name:
    a numeric address such as [jmp 5] is no statement, and a program
    made of it fails with a [SyntaxError]. *)
Theorem numeric_branch_target_rejected (kw ds : string)
  (Hkw : In kw ["jmp"; "jif"; "call"])
  (Hds : ds <> EmptyString /\ all_chars is_ascii_digit ds = true) :
  statement (kw ++ " " ++ ds) = None /\ translate (kw ++ " " ++ ds) = Err SyntaxError.
Proof.
  destruct Hds as [Hne Hd]. destruct ds as [|c ds]; [done|].
  simpl in Hd. apply andb_prop in Hd as [Hc _].
  assert (Hid : pmap VStr IDENTIFIER (snd (span is_space (String c ds))) = None).
  { rewrite span_stop by (simpl; now rewrite digit_not_space).
    apply pmap_none. simpl. now rewrite digit_not_ident_start. }
  assert (Hst : statement (kw ++ " " ++ String c ds) = None).
  { unfold statement, OPCODE.
    simpl in Hkw; repeat destruct Hkw as [<-|Hkw]; try done;
    (apply palt_none; [reflexivity|]; apply pmap_none;
     unfold token, pskip_r; apply pmap_none;
     unfold pseq; match goal with |- match ?t with _ => _ end = None =>
       replace t with (@None (raw * string)); [reflexivity|symmetry] end;
     repeat (rewrite palt_r by reflexivity);
     apply palt_none; [|reflexivity];
     unfold BRANCH_OP; apply palt_none; [|reflexivity];
     unfold rlist; apply pmap_none; eapply pseq_none_r; [|exact Hid];
     repeat (rewrite palt_r by reflexivity);
     first [apply palt_l|idtac]; (eapply literal_sp; reflexivity)). }
  split; [exact Hst|].
  unfold translate, parse, program, pskip_l, pmap, pseq, WHITESPACE.
  simpl in Hkw; repeat destruct Hkw as [<-|Hkw]; try done;
  (rewrite span_stop by reflexivity; unfold pmany; cbn [many_fuel fst snd];
   rewrite Hst; reflexivity).
Qed.

Lemma numeric_branch_target_rejected_witness :
  translate ("jmp" ++ " " ++ "5") = Err SyntaxError.
Proof.
  apply (numeric_branch_target_rejected "jmp" "5"); [simpl; tauto|].
  split; [discriminate|reflexivity].
Defined.

(** ** Rendered text never breaks a directive line *)

Lemma all_chars_app (f : ascii -> bool) (s t : string) :
  all_chars f (s ++ t) = all_chars f s && all_chars f t.
Proof.
  induction s as [|c s IH]; [done|]. rewrite str_app_cons. simpl. rewrite IH.
  now rewrite andb_assoc.
Qed.

Lemma all_chars_substring (f : ascii -> bool) (n m : nat) (s : string) :
  all_chars f s = true -> all_chars f (substring n m s) = true.
Proof.
  revert n m. induction s as [|c s IH]; intros [|n] [|m] H; simpl in *; auto.
  - apply andb_prop in H as [Hc Hs]. rewrite Hc. simpl. now apply IH.
  - apply andb_prop in H as [_ Hs]. now apply IH.
  - apply andb_prop in H as [_ Hs]. now apply IH.
Qed.

Lemma zeros_safe (k : nat) : all_chars quote_safe (zeros k) = true.
Proof. induction k as [|k IH]; simpl; auto. Qed.

Lemma string_of_uint_safe (u : Decimal.uint) :
  all_chars quote_safe (NilEmpty.string_of_uint u) = true.
Proof. induction u; simpl; auto. Qed.

Lemma py_str_int_safe (z : Z) : all_chars quote_safe (py_str_int z) = true.
Proof.
  unfold py_str_int, NilEmpty.string_of_int. destruct (Z.to_int z); simpl;
    apply string_of_uint_safe.
Qed.

Lemma format_repr_safe (digits : string) (decpt : Z) :
  all_chars quote_safe digits = true ->
  all_chars quote_safe (format_repr digits decpt) = true.
Proof.
  intros H. unfold format_repr. cbv zeta.
  repeat match goal with |- context [if ?b then _ else _] => destruct b end;
  rewrite ?all_chars_app; rewrite ?all_chars_substring, ?zeros_safe, ?py_str_int_safe, ?H
    by exact H; reflexivity.
Qed.

Lemma py_repr_float_safe (f : pyfloat) : all_chars quote_safe (py_repr_float f) = true.
Proof.
  destruct f as [| |m e]; [reflexivity|reflexivity|]. unfold py_repr_float.
  destruct (shortest_digits _ _ _ _ _ _) as [n d].
  apply format_repr_safe, py_str_int_safe.
Qed.

Lemma py_str_safe (v : pyval) : pyval_safe v = true -> all_chars quote_safe (py_str v) = true.
Proof. destruct v; simpl; auto using py_str_int_safe, py_repr_float_safe. Qed.

Lemma literal_safe (w : string) : all_chars quote_safe w = true -> str_safe (literal w).
Proof. intros Hw s x r Hx%literal_inv. now subst. Qed.

Lemma presult_safe {A} (b : string) (p : parser A) :
  all_chars quote_safe b = true -> str_safe (presult b p).
Proof. intros Hb s x r Hx%presult_inv. now subst. Qed.

Lemma palt_str_safe (p q : parser string) : str_safe p -> str_safe q -> str_safe (palt p q).
Proof. intros Hp Hq s x r [H|H]%palt_inv; eauto. Qed.

Lemma all_chars_span (f g : ascii -> bool) (s : string) :
  (forall c, f c = true -> g c = true) -> all_chars g (fst (span f s)) = true.
Proof.
  intros Hfg. induction s as [|c s IH]; [done|]. simpl.
  destruct (f c) eqn:E; [|done]. destruct (span f s) as [t r] eqn:Es. simpl in *.
  now rewrite (Hfg c E), IH.
Qed.

Lemma ident_char_safe (c : ascii) : is_ident_char c = true -> quote_safe c = true.
Proof. destruct c as [[] [] [] [] [] [] [] []]; first [reflexivity | discriminate]. Qed.

Lemma ident_start_safe (c : ascii) : is_ident_start c = true -> quote_safe c = true.
Proof. destruct c as [[] [] [] [] [] [] [] []]; first [reflexivity | discriminate]. Qed.

Lemma IDENTIFIER_safe : str_safe IDENTIFIER.
Proof.
  intros [|c s] x r; simpl; [done|]. destruct (is_ident_start c) eqn:Hc; [|done].
  pose proof (all_chars_span is_ident_char quote_safe s ident_char_safe) as Hs.
  destruct (span is_ident_char s) as [t r']. intros [= <- _]. simpl in *.
  now rewrite (ident_start_safe c Hc), Hs.
Qed.

Lemma pstring_safe (w : string) : all_chars quote_safe w = true -> str_safe (pstring w).
Proof.
  intros Hw s x r. unfold pstring. destruct (strip_prefix w s); [|done].
  now intros [= <- _].
Qed.

Lemma pcat_safe (p q : parser string) : str_safe p -> str_safe q -> str_safe (pcat p q).
Proof.
  intros Hp Hq s x r. unfold pcat. intros ([y z] & H & ->)%pmap_inv.
  apply pseq_inv in H as (r1 & H1 & H2). rewrite all_chars_app.
  now rewrite (Hp _ _ _ H1), (Hq _ _ _ H2).
Qed.

Lemma pmap_VStr_safe (p : parser string) : str_safe p -> val_safe (pmap VStr p).
Proof. intros Hp s v r (x & H & ->)%pmap_inv. exact (Hp _ _ _ H). Qed.

Lemma palt_val_safe (p q : parser pyval) : val_safe p -> val_safe q -> val_safe (palt p q).
Proof. intros Hp Hq s x r [H|H]%palt_inv; eauto. Qed.

Lemma NUMBER_safe : val_safe NUMBER.
Proof. intros s v r [H|H]%palt_inv; apply pmap_inv in H as (t & _ & ->); reflexivity. Qed.

Lemma BOOLEAN_safe : val_safe BOOLEAN.
Proof. intros s v r [H|H]%palt_inv; apply presult_inv in H; now subst. Qed.

Lemma rword_safe (p : parser string) (s : string) x r :
  str_safe p -> rword p s = Some (x, r) -> raw_safe x = true.
Proof. intros Hp (o & H & ->)%pmap_inv. exact (Hp _ _ _ H). Qed.

Lemma rlist_safe (p : parser string) (q : parser pyval) (s : string) x r :
  str_safe p -> val_safe q -> rlist (pseq p q) s = Some (x, r) -> raw_safe x = true.
Proof.
  intros Hp Hq. unfold rlist. intros ([o a] & H & ->)%pmap_inv.
  apply pseq_inv in H as (r1 & H1 & H2). simpl.
  now rewrite (Hp _ _ _ H1), (Hq _ _ _ H2).
Qed.

Ltac safe_tac :=
  repeat first
    [ apply literal_safe; reflexivity | apply presult_safe; reflexivity
    | apply pstring_safe; reflexivity
    | apply IDENTIFIER_safe | apply NUMBER_safe | apply BOOLEAN_safe
    | apply palt_str_safe | apply palt_val_safe | apply pcat_safe | apply pmap_VStr_safe ].

Lemma statement_safe (s : string) n r : statement s = Some (n, r) -> node_safe n = true.
Proof.
  unfold statement. intros [H|H]%palt_inv.
  - unfold LABEL in H. apply pmap_inv in H as (x & _ & ->). reflexivity.
  - unfold OPCODE in H. apply pmap_inv in H as (x & H & ->).
    assert (Hx : raw_safe x = true); [|destruct x as [o|o a]; exact Hx].
    unfold token, pskip_r in H. apply pmap_inv in H as ([x' w] & H & Hx).
    apply pseq_inv in H as (r1 & H & _). simpl in Hx. subst x'.
    unfold STACK_OP, BRANCH_OP, ARITHMETIC_OP, LOGICAL_OP in H.
    repeat match goal with
    | H : palt _ _ _ = Some _ |- _ => apply palt_inv in H as [H|H]
    end;
    first [ eapply rword_safe; [|exact H]; safe_tac
          | eapply rlist_safe; [| |exact H]; unfold BOOLEAN, FORWARD_SLASH; safe_tac ].
Qed.

Lemma many_fuel_forall (P : node -> Prop) (fuel : nat) (s : string) xs r :
  (forall s n r, statement s = Some (n, r) -> P n) ->
  many_fuel fuel statement s = (xs, r) -> Forall P xs.
Proof.
  intros HP. revert s xs r. induction fuel as [|fuel IH]; intros s xs r H; simpl in H.
  - injection H as <- _. constructor.
  - destruct (statement s) as [[n r1]|] eqn:Hs.
    + destruct (many_fuel fuel statement r1) as [xs' r'] eqn:Hm.
      injection H as <- _. constructor; [eapply HP; eauto|eauto].
    + injection H as <- _. constructor.
Qed.

Lemma parse_program_safe (src : string) (ast : list node) :
  parse program src = Ok ast -> Forall (fun n => node_safe n = true) ast.
Proof.
  unfold parse, program, pskip_l, pmap, pseq, WHITESPACE, pmany.
  destruct (span is_space src) as [w s].
  destruct (many_fuel _ statement s) as [xs r] eqn:Hm.
  destruct r; [|discriminate]. intros [= <-].
  eapply many_fuel_forall; [|exact Hm]. apply statement_safe.
Qed.

Lemma In_opcodes_of (ast : list node) (op : string) (arg : option pyval) :
  In (op, arg) (opcodes_of ast) -> In (NOpcode op arg) ast.
Proof.
  induction ast as [|[name|op' arg'] ast IH]; simpl; [done|auto|].
  intros [[= -> ->]|H]; auto.
Qed.

Lemma Forall2_in_r {A B} (P : A -> B -> Prop) (l : list A) (k : list B) (y : B) :
  Forall2 P l k -> In y k -> exists x, In x l /\ P x y.
Proof.
  induction 1 as [|x y' l k Hxy _ IH]; simpl; [done|].
  intros [->|Hin]; [eauto|]. destruct (IH Hin) as (x' & ? & ?). eauto.
Qed.

Lemma render_safe (labels : gmap string Z) (op : string) (arg : option pyval) (ins : string) :
  node_safe (NOpcode op arg) = true -> render labels op arg = Ok ins ->
  all_chars quote_safe ins = true.
Proof.
  unfold render. destruct arg as [a|]; simpl.
  - intros [Hop Ha]%andb_prop.
    destruct (is_branch op).
    + destruct (lookup_label labels a); [|discriminate]. intros [= <-].
      rewrite !all_chars_app, Hop, py_str_int_safe. reflexivity.
    + intros [= <-]. rewrite !all_chars_app, Hop, py_str_safe by exact Ha. reflexivity.
  - intros Hop [= <-]. exact Hop.
Qed.

Lemma count_char_app (c : ascii) (s t : string) :
  count_char c (s ++ t) = (count_char c s + count_char c t)%nat.
Proof.
  induction s as [|d s IH]; [done|]. rewrite str_app_cons. simpl. rewrite IH.
  destruct (Ascii.eqb c d); reflexivity.
Qed.

Lemma count_char_safe (s : string) :
  all_chars quote_safe s = true ->
  count_char (ascii_of_nat 10) s = O /\ count_char (ascii_of_nat 34) s = O.
Proof.
  induction s as [|c s IH]; [done|]. cbn [count_char all_chars]. intros [Hc Hs]%andb_prop.
  unfold quote_safe in Hc. apply andb_prop in Hc as [H34 H10].
  apply negb_true_iff in H34, H10. rewrite Ascii.eqb_sym in H34, H10.
  rewrite H34, H10. now apply IH.
Qed.

Lemma emit_from_counts (n : nat) (instructions : list string) :
  Forall (fun ins => all_chars quote_safe ins = true) instructions ->
  count_char (ascii_of_nat 10) (emit_from n instructions) = length instructions /\
  count_char (ascii_of_nat 34) (emit_from n instructions) = (2 * length instructions)%nat.
Proof.
  revert n. induction instructions as [|ins rest IH]; intros n Hall; [done|].
  inversion Hall as [|? ? Hins Hrest]; subst.
  destruct (IH (S n) Hrest) as [IH10 IH34].
  destruct (count_char_safe _ Hins) as [I10 I34].
  destruct (count_char_safe _ (py_str_int_safe (Z.of_nat n))) as [N10 N34].
  simpl emit_from. unfold directive.
  rewrite !count_char_app, IH10, IH34, I10, I34, N10, N34. simpl. lia.
Qed.

(** Extra: no instruction rendered by a successful run holds a double
    quote or a line feed, so the emitted text has exactly one line feed
    and two double quotes per instruction: every directive is one line
    with its instruction text quoted intact. *)
Theorem output_lines_well_formed (src : string) (instructions : list string)
  (H : translate src = Ok instructions) :
  Forall (fun ins => all_chars quote_safe ins = true) instructions /\
  count_char (ascii_of_nat 10) (emit instructions) = length instructions /\
  count_char (ascii_of_nat 34) (emit instructions) = (2 * length instructions)%nat.
Proof.
  unfold translate in H. destruct (parse program src) as [ast|e] eqn:Hp; [|discriminate].
  apply parse_program_safe in Hp. apply generate_forall2 in H.
  assert (Hall : Forall (fun ins => all_chars quote_safe ins = true) instructions).
  { apply List.Forall_forall. intros ins Hin.
    destruct (Forall2_in_r _ _ _ _ H Hin) as ([op arg] & Hop & Hr).
    apply In_opcodes_of in Hop. rewrite List.Forall_forall in Hp.
    exact (render_safe _ _ _ _ (Hp _ Hop) Hr). }
  split; [exact Hall|]. now apply emit_from_counts.
Qed.

Lemma output_lines_well_formed_witness :
  count_char (ascii_of_nat 10) (emit ["push 0.5"; "jmp 0"]) = 2%nat.
Proof.
  apply (output_lines_well_formed "start: push .5
jmp start"); reflexivity.
Defined.

(** ** What a run does to the files *)

Lemma substring_prefix (n : nat) (s : string) :
  exists rest, (substring 0 n s ++ rest)%string = s.
Proof.
  revert n. induction s as [|c s IH]; intros [|n].
  - now exists EmptyString.
  - now exists EmptyString.
  - exists (String c s). reflexivity.
  - destruct (IH n) as [rest Hr]. exists rest. cbn [substring].
    rewrite str_app_cons. now rewrite Hr.
Qed.

(** Extra: a run changes at most the output path. Every exception but
    an [OSError] on the output path leaves all files as they were: the
    output is opened only after code generation. An [OSError] on the
    output path leaves the files as they were ([open] refused) or the
    output holding a prefix of the directives (write or close failed).
    A missing source is reported as such; an error of the translation
    is raised with its cause; on success the output path holds the
    directives emitted for the source text as read. *)
Theorem run_effects (readable writable : string -> bool) (write_fault : string -> option nat)
  (fs fs' : filesystem) (args : cli_arguments) (o : outcome)
  (H : run readable writable write_fault fs args = (o, fs')) :
  (forall p, p <> output args -> fs' !! p = fs !! p) /\
  (forall e, o = Raised e -> e <> OSError (output args) -> fs' = fs) /\
  (forall e, o = Raised e -> fs' = fs \/
     exists contents instructions written rest,
       fs !! file args = Some (File contents) /\
       Py.translate (universal_newlines contents) = Ok instructions /\
       (written ++ rest)%string = emit instructions /\
       fs' = <[output args := File written]> fs) /\
  (fs !! file args = None -> o = Raised SourceMissing) /\
  (forall contents e, fs !! file args = Some (File contents) -> readable (file args) = true ->
     Py.translate (universal_newlines contents) = Err e -> o = Raised (TranslationError e)) /\
  (o = Done -> exists contents instructions,
     fs !! file args = Some (File contents) /\
     Py.translate (universal_newlines contents) = Ok instructions /\
     fs' = <[output args := File (emit instructions)]> fs).
Proof.
  unfold run in H.
  destruct (fs !! file args) as [[contents|]|] eqn:Hf;
    [|injection H as Ho' Hfs'; subst o fs'; repeat split; intros; try left; congruence
     |injection H as Ho' Hfs'; subst o fs'; repeat split; intros; try left; congruence].
  destruct (readable (file args)) eqn:Hr; simpl in H;
    [|injection H as Ho' Hfs'; subst o fs'; repeat split; intros; try left; congruence].
  destruct (Py.translate (universal_newlines contents)) as [instructions|e] eqn:Ht;
    [|injection H as Ho' Hfs'; subst o fs'; repeat split; intros; try left; congruence].
  destruct (fs !! output args) as [[c|]|] eqn:Ho;
    [| injection H as Ho' Hfs'; subst o fs'; repeat split; intros; try left; congruence |];
    (destruct (writable (output args)) eqn:Hw;
     [destruct (write_fault (output args)) as [n|] eqn:Hwf|]);
    injection H as Ho' Hfs'; subst o fs'; repeat split; intros; try congruence;
    try (now rewrite lookup_insert_ne by congruence); try (left; reflexivity);
    try (exists contents, instructions; now split).
  all: right; destruct (substring_prefix n (emit instructions)) as [rest Hrest];
    exists contents, instructions, (substring 0 n (emit instructions)), rest; auto.
Qed.

Definition run_example_files : filesystem :=
  {[ "prog.fasm" := File "start: jmp start" ]}.

Lemma run_effects_witness :
  run (fun _ => true) (fun _ => true) (fun _ => Some 5%nat) run_example_files
      (cli_namespace "prog.fasm" None) =
    (Raised (OSError "a.cfg"), <[ "a.cfg" := File "alias" ]> run_example_files) /\
  (<[ "a.cfg" := File "alias" ]> run_example_files) !! "prog.fasm" =
    Some (File "start: jmp start").
Proof.
  assert (Hrun : run (fun _ => true) (fun _ => true) (fun _ => Some 5%nat) run_example_files
                   (cli_namespace "prog.fasm" None) =
                 (Raised (OSError "a.cfg"), <[ "a.cfg" := File "alias" ]> run_example_files))
    by (vm_compute; reflexivity).
  split; [exact Hrun|].
  rewrite (proj1 (run_effects _ _ _ _ _ _ _ Hrun) "prog.fasm" ltac:(discriminate)).
  reflexivity.
Defined.

(** ** Line ends read in text mode *)































(** ** Runs of whitespace *)

























(** ** The parser with Python's exceptions *)

Lemma str_length_app (s t : string) :
  String.length (s ++ t) = (String.length s + String.length t)%nat.
Proof. induction s as [|c s IH]; [reflexivity|]. rewrite str_app_cons. simpl. lia. Qed.

Lemma span_split (f : ascii -> bool) (s : string) :
  (fst (span f s) ++ snd (span f s))%string = s.
Proof.
  induction s as [|c s IH]; [reflexivity|]. cbn [span].
  destruct (f c); [|reflexivity].
  destruct (span f s) as [a b]. cbn [fst snd] in *. rewrite str_app_cons. now rewrite IH.
Qed.

Lemma strip_prefix_split (w s r : string) : strip_prefix w s = Some r -> s = (w ++ r)%string.
Proof.
  revert s. induction w as [|a w IH]; intros s H.
  - now injection H as ->.
  - destruct s as [|b s]; [discriminate|]. cbn [strip_prefix] in H.
    destruct (Ascii.eqb a b) eqn:E; [|discriminate]. apply Ascii.eqb_eq in E as ->.
    rewrite str_app_cons. now rewrite (IH s H).
Qed.

Lemma pmap_suffix {A B} (f : A -> B) (p : parser A) : suffix_of p -> suffix_of (pmap f p).
Proof.
  intros Hp s y r. unfold pmap. destruct (p s) as [[x r0]|] eqn:E; [|discriminate].
  intros [= _ <-]. exact (Hp _ _ _ E).
Qed.

Lemma palt_suffix {A} (p q : parser A) : suffix_of p -> suffix_of q -> suffix_of (palt p q).
Proof.
  intros Hp Hq s x r. unfold palt. destruct (p s) as [[y r0]|] eqn:E.
  - intros [= -> <-]. exact (Hp _ _ _ E).
  - apply Hq.
Qed.

Lemma pseq_suffix {A B} (p : parser A) (q : parser B) :
  suffix_of p -> suffix_of q -> suffix_of (pseq p q).
Proof.
  intros Hp Hq s xy r. unfold pseq. destruct (p s) as [[x r0]|] eqn:E; [|discriminate].
  destruct (q r0) as [[y r1]|] eqn:E2; [|discriminate]. intros [= _ <-].
  destruct (Hp _ _ _ E) as [pre1 ->]. destruct (Hq _ _ _ E2) as [pre2 ->].
  exists (pre1 ++ pre2)%string. apply str_app_assoc.
Qed.

Lemma WHITESPACE_suffix : suffix_of WHITESPACE.
Proof.
  intros s x r. unfold WHITESPACE. intros [= H].
  exists x. rewrite <- (span_split is_space s), H. reflexivity.
Qed.

Lemma word_b_suffix (w : string) : suffix_of (word_b w).
Proof.
  intros s x r. unfold word_b. destruct (strip_prefix w s) as [r0|] eqn:E; [|discriminate].
  destruct (word_boundary _ _); [|discriminate]. intros [= _ <-].
  exists w. now apply strip_prefix_split.
Qed.

Lemma pstring_suffix (w : string) : suffix_of (pstring w).
Proof.
  intros s x r. unfold pstring. destruct (strip_prefix w s) as [r0|] eqn:E; [|discriminate].
  intros [= _ <-]. exists w. now apply strip_prefix_split.
Qed.

Lemma IDENTIFIER_suffix : suffix_of IDENTIFIER.
Proof.
  intros [|c s] x r; [discriminate|]. unfold IDENTIFIER.
  destruct (is_ident_start c); [|discriminate].
  pose proof (span_split is_ident_char s) as Hs.
  destruct (span is_ident_char s) as [t r0]. intros [= _ <-].
  exists (String c t). rewrite str_app_cons. cbn [fst snd] in Hs. now rewrite Hs.
Qed.

Lemma INTEGER_RE_suffix : suffix_of INTEGER_RE.
Proof.
  intros s x r. unfold INTEGER_RE. pose proof (span_split is_ascii_digit s) as Hs.
  destruct (span is_ascii_digit s) as [d r0]. cbn [fst snd] in Hs.
  destruct d as [|c d]; [discriminate|]. intros [= _ <-]. now exists (String c d).
Qed.

Lemma FLOAT_RE_suffix : suffix_of FLOAT_RE.
Proof.
  intros s x r. unfold FLOAT_RE. pose proof (span_split is_ascii_digit s) as Hs.
  destruct (span is_ascii_digit s) as [d1 r1]. cbn [fst snd] in Hs.
  destruct r1 as [|c r2]; [discriminate|].
  destruct c as [[] [] [] [] [] [] [] []]; try discriminate.
  pose proof (span_split is_ascii_digit r2) as Hs2.
  destruct (span is_ascii_digit r2) as [d2 r3]. cbn [fst snd] in Hs2.
  destruct d2 as [|c d2]; [discriminate|]. intros [= _ <-].
  exists (d1 ++ String "." (String c d2))%string. rewrite <- Hs, <- Hs2.
  rewrite <- str_app_assoc. reflexivity.
Qed.

Ltac suffix_tac :=
  repeat first
    [ apply word_b_suffix | apply pstring_suffix | apply IDENTIFIER_suffix
    | apply WHITESPACE_suffix | apply INTEGER_RE_suffix | apply FLOAT_RE_suffix
    | apply palt_suffix | apply pmap_suffix | apply pseq_suffix
    | progress unfold token, literal, pskip_r, pskip_l, presult, rword, rlist, pcat,
        NUMBER, FLOAT, INTEGER ].

Lemma has_long_run_app (pre s : string) : has_long_run s -> has_long_run (pre ++ s).
Proof.
  intros (pre' & d & post & -> & Hd & Hl). exists (pre ++ pre')%string, d, post.
  split; [|auto]. apply str_app_assoc.
Qed.

Lemma lift_sound {A} (p : parser A) : sound (Py.lift p) p.
Proof. intros s. now left. Qed.

Lemma pmap_sound {A B} (f : A -> B) (xp : Py.parser A) (p : parser A) :
  sound xp p -> sound (Py.pmap f xp) (pmap f p).
Proof.
  intros Hp s. unfold Py.pmap, Py.pmap_py, pmap.
  destruct (Hp s) as [E|[E L]]; rewrite E; [|now right].
  left. now destruct (p s) as [[x r]|].
Qed.

Lemma palt_sound {A} (xp xq : Py.parser A) (p q : parser A) :
  sound xp p -> sound xq q -> sound (Py.palt xp xq) (palt p q).
Proof.
  intros Hp Hq s. unfold Py.palt, palt.
  destruct (Hp s) as [E|[E L]]; rewrite E; [|now right].
  destruct (p s) as [[x r]|]; [now left|apply Hq].
Qed.

Lemma pseq_sound {A B} (xp : Py.parser A) (xq : Py.parser B) (p : parser A) (q : parser B) :
  suffix_of p -> sound xp p -> sound xq q -> sound (Py.pseq xp xq) (pseq p q).
Proof.
  intros Hsuf Hp Hq s. unfold Py.pseq, pseq.
  destruct (Hp s) as [E|[E L]]; rewrite E; [|now right].
  destruct (p s) as [[x r]|] eqn:Ep; [|now left]. cbn [Py.of_option].
  destruct (Hq r) as [E2|[E2 L2]]; rewrite E2.
  - left. now destruct (q r) as [[y r']|].
  - right. split; [reflexivity|]. destruct (Hsuf _ _ _ Ep) as [pre ->].
    now apply has_long_run_app.
Qed.

Lemma INTEGER_sound : sound Py.INTEGER INTEGER.
Proof.
  intros s. unfold Py.INTEGER, INTEGER, Py.pmap_py, Py.lift, pmap.
  destruct (INTEGER_RE s) as [[t r]|] eqn:E; cbn [Py.of_option]; [|now left].
  unfold Py.int. destruct (4300 <? String.length t)%nat eqn:L; [|now left].
  right. split; [reflexivity|]. apply Nat.ltb_lt in L.
  unfold INTEGER_RE in E. pose proof (span_split is_ascii_digit s) as Hs.
  pose proof (all_chars_span is_ascii_digit is_ascii_digit s (fun c H => H)) as Hd.
  destruct (span is_ascii_digit s) as [d r0]. cbn [fst snd] in Hs, Hd.
  destruct d as [|c d]; [discriminate|]. injection E as Et Er. subst t r0.
  rewrite <- Hs. exists EmptyString, (String c d), r. rewrite str_app_nil_l. auto.
Qed.

Lemma many_fuel_sound {A} (xp : Py.parser A) (p : parser A) (fuel : nat) (s : string) :
  suffix_of p -> sound xp p ->
  Py.many_fuel fuel xp s = Py.Succeeds (fst (many_fuel fuel p s)) (snd (many_fuel fuel p s)) \/
  (Py.many_fuel fuel xp s = Py.Raises ValueError /\ has_long_run s).
Proof.
  intros Hsuf Hp. revert s. induction fuel as [|f IH]; intros s; [now left|].
  cbn [Py.many_fuel many_fuel].
  destruct (Hp s) as [E|[E L]]; rewrite E; [|now right].
  destruct (p s) as [[x r]|] eqn:Ep; cbn [Py.of_option]; [|now left].
  destruct (IH r) as [E2|[E2 L2]]; rewrite E2.
  - left. now destruct (many_fuel f p r).
  - right. split; [reflexivity|]. destruct (Hsuf _ _ _ Ep) as [pre ->].
    now apply has_long_run_app.
Qed.

Ltac sound_tac :=
  repeat first
    [ progress unfold Py.rword, Py.rlist, Py.presult, Py.pcat, Py.pskip_r, Py.pskip_l,
        Py.token, Py.literal, Py.NUMBER, Py.FLOAT, Py.WHITESPACE, Py.IDENTIFIER,
        Py.COLON, Py.FORWARD_SLASH,
        rword, rlist, presult, pcat, pskip_r, pskip_l, token, literal, NUMBER, FLOAT,
        COLON, FORWARD_SLASH
    | apply INTEGER_sound | apply lift_sound
    | apply palt_sound | apply pmap_sound | (apply pseq_sound; [suffix_tac| |]) ].

Lemma statement_sound : sound Py.statement statement.
Proof.
  unfold Py.statement, Py.LABEL, Py.OPCODE, Py.STACK_OP, Py.PUSH, Py.POP, Py.DUP, Py.DOT,
    Py.ARITHMETIC_OP, Py.ADD, Py.SUB, Py.MUL, Py.DIV, Py.POW, Py.MIN, Py.MAX,
    Py.BRANCH_OP, Py.JMP, Py.JIF, Py.CALL, Py.RET, Py.LOGICAL_OP, Py.EQ, Py.NE, Py.LT,
    Py.LE, Py.GT, Py.GE, Py.IO_OP, Py.STORE, Py.LOAD, Py.GSTORE, Py.GLOAD, Py.HLT,
    Py.BOOLEAN, Py.TRUE, Py.FALSE.
  unfold statement, LABEL, OPCODE, STACK_OP, PUSH, POP, DUP, DOT,
    ARITHMETIC_OP, ADD, SUB, MUL, DIV, POW, MIN, MAX, BRANCH_OP, JMP, JIF, CALL, RET,
    LOGICAL_OP, EQ, NE, LT, LE, GT, GE, IO_OP, STORE, LOAD, GSTORE, GLOAD, HLT,
    BOOLEAN, TRUE, FALSE.
  sound_tac.
Qed.

Lemma statement_suffix : suffix_of statement.
Proof.
  unfold statement, LABEL, OPCODE, STACK_OP, PUSH, POP, DUP, DOT,
    ARITHMETIC_OP, ADD, SUB, MUL, DIV, POW, MIN, MAX, BRANCH_OP, JMP, JIF, CALL, RET,
    LOGICAL_OP, EQ, NE, LT, LE, GT, GE, IO_OP, STORE, LOAD, GSTORE, GLOAD, HLT,
    BOOLEAN, TRUE, FALSE, FORWARD_SLASH, COLON.
  suffix_tac.
Qed.

Lemma program_sound : sound Py.program program.
Proof.
  unfold Py.program, program, Py.pskip_l, pskip_l, Py.WHITESPACE.
  apply pmap_sound, pseq_sound; [exact WHITESPACE_suffix|apply lift_sound|].
  intros s. unfold Py.pmany, pmany.
  destruct (many_fuel_sound Py.statement statement (S (String.length s)) s
              statement_suffix statement_sound) as [E|E]; [left|now right].
  rewrite E. now destruct (many_fuel _ statement s).
Qed.

Lemma has_long_run_length (s : string) : has_long_run s -> (4300 < String.length s)%nat.
Proof.
  intros (pre & d & post & -> & _ & Hl). rewrite !str_length_app. lia.
Qed.

Lemma py_parse_of_option {A} (o : option (A * string)) (p : parser A) (s : string) :
  p s = o -> Py.parse (fun _ => Py.of_option o) s = parse p s.
Proof. intros <-. unfold Py.parse, parse. now destruct (p s) as [[x [|c r]]|]. Qed.

(** The parse of the program either agrees with the parse without the
    digit limit or is the [ValueError] of [int()]. *)
Lemma py_parse_program (src : string) :
  Py.parse Py.program src = parse program src \/
  (Py.program src = Py.Raises ValueError /\ Py.parse Py.program src = Err ValueError /\
   has_long_run src).
Proof.
  destruct (program_sound src) as [E|[E L]].
  - left. unfold Py.parse at 1. rewrite E. unfold parse.
    now destruct (program src) as [[x [|c r]]|].
  - right. unfold Py.parse. now rewrite E.
Qed.

Lemma py_parse_ok (src : string) (ast : list node) :
  Py.parse Py.program src = Ok ast -> parse program src = Ok ast.
Proof. intros H. destruct (py_parse_program src) as [E|(_ & E & _)]; congruence. Qed.

Lemma py_parse_err (src : string) (e : error) :
  Py.parse Py.program src = Err e -> e = SyntaxError \/ e = ValueError.
Proof.
  intros H. destruct (py_parse_program src) as [E|(_ & E & _)].
  - left. rewrite H in E. unfold parse in E.
    destruct (program src) as [[x [|c r]]|]; congruence.
  - right. congruence.
Qed.

(* ================================================================== *)
(** * Claims on the parser with Python's exceptions *)

(** C5: on a parsed program, code generation fails if and only if some
    branch ([jmp]/[jif]/[call]) names a label declared nowhere; the error
    is [UndefinedLabel] of such a name; the run then ends with that error
    and the output file is left as it was. Parsing itself never reports
    an undefined label: it fails only with a [SyntaxError] or with the
    [ValueError] of [int()], and the label pass has no failure at all. *)
Theorem undefined_label_iff (src : string) (ast : list node) (out : option string)
  (Hparse : Py.parse Py.program src = Ok ast) :
  ((exists name, generate (resolve ast) 0 ast = Err (UndefinedLabel name)) <->
   (exists op name, In (NOpcode op (Some (VStr name))) ast /\ is_branch op = true /\
                    ~ In (NLabel name) ast)) /\
  (forall e, generate (resolve ast) 0 ast = Err e ->
     exists op name, e = UndefinedLabel name /\ In (NOpcode op (Some (VStr name))) ast /\
                     is_branch op = true /\ ~ In (NLabel name) ast) /\
  (forall e, generate (resolve ast) 0 ast = Err e ->
     Py.translate src = Err e /\ Py.main src out = (Err e, out)) /\
  (forall src' e, Py.parse Py.program src' = Err e -> e = SyntaxError \/ e = ValueError).
Proof.
  pose proof (parse_program_ok _ _ (py_parse_ok _ _ Hparse)) as Hok.
  assert (Herr : forall e, generate (resolve ast) 0 ast = Err e ->
     exists op name, e = UndefinedLabel name /\ In (NOpcode op (Some (VStr name))) ast /\
                     is_branch op = true /\ ~ In (NLabel name) ast).
  { intros e (op & arg & Hin & Hr)%generate_err.
    apply render_err in Hr as (a & -> & Hb & Hl & ->).
    rewrite List.Forall_forall in Hok. destruct (Hok _ Hin Hb) as [name ->].
    exists op, name. simpl in Hl. apply resolve_none in Hl. auto. }
  split; [split|split; [exact Herr|split]].
  - intros [name (op & name' & [= <-] & ?)%Herr]. eauto.
  - intros (op & name & Hin & Hb & Hnot).
    assert (Hr : render (resolve ast) op (Some (VStr name)) = Err (UndefinedLabel name)).
    { unfold render. rewrite Hb. simpl. apply resolve_none in Hnot. now rewrite Hnot. }
    destruct (generate_err_of _ 0 _ _ _ _ Hin Hr) as [e He].
    destruct (Herr e He) as (op' & name' & -> & _). eauto.
  - intros e He. unfold Py.main, Py.translate. rewrite Hparse, He. auto.
  - apply py_parse_err.
Qed.

Lemma undefined_label_iff_witness :
  Py.parse Py.program "call missing" = Ok [NOpcode "call" (Some (VStr "missing"))] /\
  generate (resolve [NOpcode "call" (Some (VStr "missing"))]) 0
    [NOpcode "call" (Some (VStr "missing"))] = Err (UndefinedLabel "missing") /\
  Py.main "call missing" None = (Err (UndefinedLabel "missing"), None).
Proof.
  split; [reflexivity|]. split; [reflexivity|].
  apply (undefined_label_iff "call missing" [NOpcode "call" (Some (VStr "missing"))] None);
    reflexivity.
Defined.

(** C7 (counterexample): [push] followed by 4301 nines is not a
    [SyntaxError]: [int()] raises [ValueError] inside the parse, and the
    run ends with it. *)
Lemma long_integer_operand_raises :
  Py.parse Py.program ("push " ++ repeat_char 4301 "9") = Err ValueError /\
  Py.main ("push " ++ repeat_char 4301 "9") None = (Err ValueError, None).
Proof. split; vm_compute; reflexivity. Qed.

(** C7 (amended): parsing is all or nothing. The program parser never
    fails; either it consumes the whole text and its nodes are what code
    generation gets, or text is left over and the parse, the translation
    and the run end with [SyntaxError], or [int()] raises [ValueError] on
    an integer literal of more than 4300 digits (the source then has such
    a run of digits) and the parse, the translation and the run end with
    it. In no failing case is a partial node sequence used, and the
    output file is left as it was. *)
Theorem parse_outcomes (src : string) (out : option string) :
  (exists ast, Py.program src = Py.Succeeds ast EmptyString /\
               Py.parse Py.program src = Ok ast /\
               Py.translate src = generate (resolve ast) 0 ast) \/
  ((exists ast rest, Py.program src = Py.Succeeds ast rest /\ rest <> EmptyString) /\
   Py.parse Py.program src = Err SyntaxError /\ Py.translate src = Err SyntaxError /\
   Py.main src out = (Err SyntaxError, out)) \/
  (Py.program src = Py.Raises ValueError /\ has_long_run src /\
   Py.parse Py.program src = Err ValueError /\ Py.translate src = Err ValueError /\
   Py.main src out = (Err ValueError, out)).
Proof.
  destruct (program_sound src) as [E|[E L]].
  - destruct (program_total src) as (ast & rest & Hp). rewrite Hp in E. cbn in E.
    destruct rest as [|c rest].
    + left. exists ast. assert (He : Py.parse Py.program src = Ok ast)
        by (unfold Py.parse; now rewrite E).
      split; [done|split; [done|]]. unfold Py.translate. now rewrite He.
    + right; left.
      assert (He : Py.parse Py.program src = Err SyntaxError)
        by (unfold Py.parse; now rewrite E).
      split; [exists ast, (String c rest); split; [done|discriminate]|].
      unfold Py.main, Py.translate. now rewrite He.
  - right; right. assert (He : Py.parse Py.program src = Err ValueError)
      by (unfold Py.parse; now rewrite E).
    unfold Py.main, Py.translate. now rewrite He.
Qed.

(** X15: without a run of more than 4300 digits in the source, the parse,
    the translation and the run are those of the grammar without the
    digit limit, on which the other claims are stated. *)
Theorem digit_limit_only_difference (src : string) (out : option string)
  (H : ~ has_long_run src) :
  Py.parse Py.program src = parse program src /\
  Py.translate src = translate src /\ Py.main src out = main src out.
Proof.
  destruct (py_parse_program src) as [E|(_ & _ & L)]; [|contradiction].
  unfold Py.main, main, Py.translate, translate. now rewrite E.
Qed.

Lemma digit_limit_only_difference_witness :
  ~ has_long_run "push 007" /\ Py.main "push 007" None = (Ok tt, Some (emit ["push 7"])).
Proof.
  assert (Hn : ~ has_long_run "push 007").
  { intros Hl. apply has_long_run_length in Hl. simpl in Hl. lia. }
  split; [exact Hn|].
  rewrite (proj2 (proj2 (digit_limit_only_difference "push 007" None Hn))).
  reflexivity.
Defined.
